(** * The schema-driven form engine of [src/components/schema-form/SchemaForm.tsx]

    A shallow embedding of the form engine: the schema type resolver
    ([getSchemaType]), the field classifier of [ObjectField], the default
    value synthesizer ([getDefaultValue]), the controls that
    [PrimitiveField] renders together with their change callbacks, and the
    change callbacks of [ObjectField] and [ArrayField].

    JavaScript objects and arrays live in a store and are handled through
    references, so that "a new container" and "the received value is left
    alone" are statements about the store.  Presentational attributes
    (labels, descriptions, class names, the expand/collapse flag) are left
    out. *)

From Stdlib Require Import Ascii String.
From stdpp Require Import base option list strings pretty gmap fin_maps sorting.

Local Open Scope string_scope.

(** ** The numbers of the JavaScript runtime

    [number], [String(n)], [parseInt(s, 10)], [parseFloat(s)], [isNaN(n)],
    truthiness and [>] belong to the runtime, not to the repository.  The
    engine is embedded over any runtime that offers them; the two laws are
    facts of ECMAScript numbers: a small non-negative integer prints as its
    decimal numeral, and a number greater than a non-negative integer is
    truthy (it is neither [0] nor [NaN]). *)

Class JsNumber := {
  number : Type;
  (** the numeric literal [z] *)
  lit : Z → number;
  isNaN : number → bool;
  (** [Boolean(n)] *)
  number_truthy : number → bool;
  (** [a > b] *)
  number_gt : number → number → bool;
  (** [String(n)] *)
  number_to_string : number → string;
  (** [parseInt(s, 10)] *)
  parseInt10 : string → number;
  parseFloat : string → number;
  number_to_string_lit z :
    (0 ≤ z < 2 ^ 53)%Z → number_to_string (lit z) = pretty z;
  number_gt_truthy n z :
    (0 ≤ z)%Z → number_gt n (lit z) = true → number_truthy n = true;
}.

(** ** An integer runtime, to run the engine on concrete inputs

    Numbers are the integers and [NaN].  [parseInt10] reads, after leading
    white space and an optional sign, the longest prefix of decimal digits.
    This runtime has no fractions: its [parseFloat] reads the same integer
    prefix, which is what ECMAScript returns on a text whose numeral has
    neither a fraction nor an exponent. *)

Module IntRuntime.

Definition is_space (a : ascii) : bool :=
  let n := nat_of_ascii a in
  ((n =? 32) || ((9 <=? n) && (n <=? 13)))%nat.

Fixpoint skip_spaces (s : string) : string :=
  match s with
  | String a s' => if is_space a then skip_spaces s' else s
  | EmptyString => s
  end.

Definition digit_of (a : ascii) : option Z :=
  let n := nat_of_ascii a in
  if ((48 <=? n) && (n <=? 57))%nat then Some (Z.of_nat (n - 48)) else None.

Fixpoint read_digits (s : string) (acc : option Z) : option Z :=
  match s with
  | String a s' =>
      match digit_of a with
      | Some d => read_digits s' (Some (10 * default 0 acc + d))%Z
      | None => acc
      end
  | EmptyString => acc
  end.

Definition parse_int (s : string) : option Z :=
  match skip_spaces s with
  | String "-"%char s' => Z.opp <$> read_digits s' None
  | String "+"%char s' => read_digits s' None
  | s' => read_digits s' None
  end.

Definition to_string (n : option Z) : string :=
  match n with Some z => pretty z | None => "NaN" end.

Definition truthy (n : option Z) : bool :=
  match n with Some z => negb (z =? 0)%Z | None => false end.

Definition gt (a b : option Z) : bool :=
  match a, b with Some x, Some y => (y <? x)%Z | _, _ => false end.

#[export] Instance int_numbers : JsNumber.
Proof.
  refine {|
    number := option Z;
    lit := Some;
    isNaN n := bool_decide (n = None);
    number_truthy := truthy;
    number_gt := gt;
    number_to_string := to_string;
    parseInt10 := parse_int;
    parseFloat := parse_int;
  |}.
  - abstract reflexivity.
  - abstract (intros [x|] z Hz; simpl; [|discriminate];
              intros Hgt%Z.ltb_lt; apply negb_true_iff, Z.eqb_neq; lia).
Defined.

End IntRuntime.

(** ** State passing

    Code that allocates reads and extends a store of type [S]. *)

Definition State (S A : Type) : Type := S → A * S.

#[export] Instance State_ret {S} : MRet (State S) := λ A a s, (a, s).

#[export] Instance State_bind {S} : MBind (State S) :=
  λ A B f m s, let '(a, s') := m s in f a s'.

Definition gets {S A} (f : S → A) : State S A := λ s, (f s, s).

(** ** Data model *)

Section Engine.
Context `{JsNumber}.

(** Addresses of the objects and arrays in the store. *)
Abbreviation loc := positive.

(** A JavaScript value ([unknown] in the source).  Objects and arrays are
    references into the store. *)
Inductive val :=
| VUndefined
| VNull
| VBoolean (b : bool)
| VNumber (n : number)
| VString (s : string)
| VRef (l : loc).

(** What a reference points to.  The properties of an object are a finite
    map from names to values; an array holds its elements densely. *)
Inductive cell :=
| CObject (props : gmap string val)
| CArray (elems : list val).

Abbreviation heap := (gmap loc cell).

(** An [enum] entry: [string | number | boolean]. *)
Inductive literal :=
| LString (s : string)
| LNumber (n : number)
| LBoolean (b : bool).

Definition literal_value (e : literal) : val :=
  match e with
  | LString s => VString s
  | LNumber n => VNumber n
  | LBoolean b => VBoolean b
  end.

(** [String(e)] on an [enum] entry. *)
Definition literal_to_string (e : literal) : string :=
  match e with
  | LString s => s
  | LNumber n => number_to_string n
  | LBoolean true => "true"
  | LBoolean false => "false"
  end.

(** [type?: string | string[]] *)
Inductive type_hint :=
| TypeName (t : string)
| TypeList (ts : list string).

(** [interface JsonSchema], with the fields that the engine's decisions
    read.  An optional field is an [option]; [schema_properties] lists the
    properties in the order in which the schema declares them, each name
    once, as an object holds it.
    [schema_default] is what reading [schema.default] gives, [VUndefined]
    when the schema has none. *)
#[local] Unset Elimination Schemes.
Inductive JsonSchema := mkJsonSchema {
  schema_type : option type_hint;
  schema_properties : option (list (string * JsonSchema));
  schema_items : option JsonSchema;
  schema_enum : option (list literal);
  schema_default : val;
  schema_maxLength : option number;
  schema_format : option string;
}.
#[local] Set Elimination Schemes.

(** ** Schema type resolver

    [None] is [undefined], which [schema.type[0]] gives on an empty list. *)
Definition getSchemaType (schema : JsonSchema) : option string :=
  match schema_type schema with
  | Some (TypeList ts) => ts !! 0%nat
  | Some (TypeName (String _ _ as t)) => Some t
  | _ =>
      if schema_properties schema is Some _ then Some "object"
      else if schema_items schema is Some _ then Some "array"
      else if schema_enum schema is Some _ then Some "string"
      else Some "string"
  end.

(** [type === t] *)
Definition type_is (type : option string) (t : string) : bool :=
  bool_decide (type = Some t).

(** ** Primitive editor *)

(** The control that [PrimitiveField] returns, with its change callback:
    the callback's result is the value handed to [onChange]. *)
Inductive control :=
| Switch (onCheckedChange : bool → val)
| Select (options : list string) (onValueChange : string → val)
| NumberInput (onChange : string → val)
| Textarea (onChange : string → val)
| TextInput (onChange : string → val).

(** [schema.enum && schema.enum.length > 0] *)
Definition hasEnum (schema : JsonSchema) : bool :=
  match schema_enum schema with
  | Some (_ :: _) => true
  | _ => false
  end.

(** [schema.format === "textarea" || (schema.maxLength && schema.maxLength > 200)] *)
Definition isMultiline (schema : JsonSchema) : bool :=
  bool_decide (schema_format schema = Some "textarea")
  || match schema_maxLength schema with
     | Some m => number_truthy m && number_gt m (lit 200)
     | None => false
     end.

(** [schema.enum?.find((e) => String(e) === v)] *)
Definition find_enum (schema : JsonSchema) (v : string) : option literal :=
  match schema_enum schema with
  | Some es => List.find (λ e, bool_decide (literal_to_string e = v)) es
  | None => None
  end.

Definition PrimitiveField (schema : JsonSchema) : control :=
  let type := getSchemaType schema in
  if type_is type "boolean" then
    Switch VBoolean
  else if hasEnum schema then
    Select (literal_to_string <$> default [] (schema_enum schema))
      (λ v, match find_enum schema v with
            | Some enumVal => literal_value enumVal
            | None => VString v
            end)
  else if type_is type "number" || type_is type "integer" then
    NumberInput
      (λ text,
         let num :=
           if type_is type "integer" then parseInt10 text else parseFloat text in
         if isNaN num then VUndefined else VNumber num)
  else if isMultiline schema then
    Textarea VString
  else
    TextInput (λ text, match text with "" => VUndefined | _ => VString text end).

(** Whether a control is the closed choice. *)
Definition is_closed_choice (c : control) : bool :=
  match c with
  | Select _ _ => true
  | _ => false
  end.

(** The callback of a control that is edited by typing text. *)
Definition text_edit (c : control) : option (string → val) :=
  match c with
  | NumberInput onChange | Textarea onChange | TextInput onChange => Some onChange
  | Switch _ | Select _ _ => None
  end.

(** ** The store

    [alloc c] is the evaluation of an object or array literal: a new
    reference, to a cell that no earlier reference points to. *)

Abbreviation M := (State heap).

Definition alloc (c : cell) : M val :=
  λ h, let l := fresh (dom h) in (VRef l, <[l := c]> h).

(** The own enumerable properties that a spread [{...x}] copies: those of
    an object, and for an array its elements under the keys [String(i)]. *)
Definition own_properties (c : cell) : gmap string val :=
  match c with
  | CObject props => props
  | CArray elems =>
      kmap (M1 := gmap nat) (M2 := gmap string) pretty (map_seq 0 elems)
  end.

(** [Array.isArray(value)] *)
Definition isArray (h : heap) (value : val) : bool :=
  match value with
  | VRef l => if h !! l is Some (CArray _) then true else false
  | _ => false
  end.

(** [xs[index] = v] on an array: [index] within the length replaces the
    element; beyond it JavaScript extends the array, and the positions
    skipped over read as [undefined]. *)
Definition array_set (xs : list val) (index : nat) (v : val) : list val :=
  if decide (index < length xs) then <[index := v]> xs
  else xs ++ replicate (index - length xs) VUndefined ++ [v].

(** [r[index] = v] *)
Definition assign_index (r : val) (index : nat) (v : val) : M () :=
  λ h,
    match r with
    | VRef l =>
        match h !! l with
        | Some (CArray xs) => ((), <[l := CArray (array_set xs index v)]> h)
        | Some (CObject props) =>
            ((), <[l := CObject (<[pretty index := v]> props)]> h)
        | None => ((), h)
        end
    | _ => ((), h)
    end.




(** ** Default value synthesizer *)

Definition getDefaultValue (schema : JsonSchema) : M val :=
  match schema_default schema with
  | VUndefined =>
      let type := getSchemaType schema in
      if type_is type "object" then alloc (CObject ∅)
      else if type_is type "array" then alloc (CArray [])
      else if type_is type "boolean" then mret (VBoolean false)
      else if type_is type "number" || type_is type "integer" then
        mret (VNumber (lit 0))
      else mret (VString "")
  | d => mret d
  end.

(** ** Object editor *)

(** The properties of [objValue], which is [value] when
    [typeof value === "object" && value !== null] and [{}] otherwise. *)
Definition objValue (h : heap) (value : val) : gmap string val :=
  match value with
  | VRef l => if h !! l is Some c then own_properties c else ∅
  | _ => ∅
  end.

(** The order of an object's own properties, which [Object.entries]
    follows: the properties whose name is an array index come first, in
    ascending numeric order, and then the other properties in the order
    in which they were created. *)

(** The value of a decimal numeral, [None] when a character is no digit. *)
Fixpoint decimal_value (s : string) (acc : N) : option N :=
  match s with
  | EmptyString => Some acc
  | String a s' =>
      let d := N_of_ascii a in
      if ((48 <=? d) && (d <=? 57))%N
      then decimal_value s' (10 * acc + (d - 48))%N
      else None
  end.

(** The array index that a property name is, if it is one: the canonical
    decimal numeral (no sign, no leading zero) of an integer below
    [2^32 - 1]. *)
Definition array_index (name : string) : option N :=
  match decimal_value name 0 with
  | Some n =>
      if bool_decide (pretty n = name) && (n <? 4294967295)%N then Some n
      else None
  | None => None
  end.

Fixpoint insert_by_index {A} (i : N) (x : A) (sorted : list (N * A))
    : list (N * A) :=
  match sorted with
  | [] => [(i, x)]
  | (j, y) :: sorted' =>
      if (i <=? j)%N then (i, x) :: sorted
      else (j, y) :: insert_by_index i x sorted'
  end.

(** The properties whose name is an array index, by ascending index. *)
Definition indexed_properties {A} (properties : list (string * A))
    : list (N * (string * A)) :=
  foldr
    (λ property sorted,
       match array_index property.1 with
       | Some i => insert_by_index i property sorted
       | None => sorted
       end)
    [] properties.

(** The other properties, in the order of their creation. *)
Definition named_properties {A} (properties : list (string * A))
    : list (string * A) :=
  List.filter
    (λ property, if array_index property.1 is Some _ then false else true)
    properties.

Definition own_property_order {A} (properties : list (string * A))
    : list (string * A) :=
  ((indexed_properties properties).*2 ++ named_properties properties)%list.

(** [schema.properties ?? {}], as the schema declares it *)
Definition declared_properties (schema : JsonSchema) : list (string * JsonSchema) :=
  default [] (schema_properties schema).

(** [Object.entries(schema.properties ?? {})] *)
Definition entries (schema : JsonSchema) : list (string * JsonSchema) :=
  own_property_order (declared_properties schema).

Definition simpleFields (schema : JsonSchema) : list (string * JsonSchema) :=
  List.filter
    (λ '(_, propSchema),
       let type := getSchemaType propSchema in
       negb (type_is type "object") && negb (type_is type "array"))
    (entries schema).

Definition complexFields (schema : JsonSchema) : list (string * JsonSchema) :=
  List.filter
    (λ '(_, propSchema),
       let type := getSchemaType propSchema in
       type_is type "object" || type_is type "array")
    (entries schema).

(** [onChange({ ...objValue, [propName]: propValue })]: the result is the
    value handed to [onChange]. *)
Definition handlePropertyChange
    (value : val) (propName : string) (propValue : val) : M val :=
  props ← gets (λ h, objValue h value);
  alloc (CObject (<[propName := propValue]> props)).

(** ** Array editor *)

(** The elements of [arrayValue], which is [value] when it is an array and
    [[]] otherwise. *)
Definition arrayValue (h : heap) (value : val) : list val :=
  match value with
  | VRef l => if h !! l is Some (CArray elems) then elems else []
  | _ => []
  end.

(** [schema.items ?? { type: "string" }] *)
Definition itemSchema (schema : JsonSchema) : JsonSchema :=
  default
    {| schema_type := Some (TypeName "string");
       schema_properties := None;
       schema_items := None;
       schema_enum := None;
       schema_default := VUndefined;
       schema_maxLength := None;
       schema_format := None |}
    (schema_items schema).

(** [xs.filter((x, i) => keep(x, i))], the elements being numbered from [i]. *)
Fixpoint filter_from {A} (keep : A → nat → bool) (i : nat) (xs : list A) : list A :=
  match xs with
  | [] => []
  | x :: xs' =>
      if keep x i then x :: filter_from keep (S i) xs'
      else filter_from keep (S i) xs'
  end.

Definition handleAdd (schema : JsonSchema) (value : val) : M val :=
  defaultValue ← getDefaultValue (itemSchema schema);
  elems ← gets (λ h, arrayValue h value);
  alloc (CArray (elems ++ [defaultValue])).

Definition handleRemove (value : val) (index : nat) : M val :=
  elems ← gets (λ h, arrayValue h value);
  alloc (CArray (filter_from (λ _ i, bool_decide (i ≠ index)) 0 elems)).

Definition handleItemChange (value : val) (index : nat) (itemValue : val) : M val :=
  elems ← gets (λ h, arrayValue h value);
  newArray ← alloc (CArray elems);
  _ ← assign_index newArray index itemValue;
  mret newArray.

(** ** Dispatch between the editors

    The component that a parent instantiates for a child, with the schema
    and the value it is given.  A collapsible section is shown open. *)
Inductive element :=
| ObjectFieldElement (schema : JsonSchema) (value : val)
| ArrayFieldElement (schema : JsonSchema) (value : val)
| PrimitiveFieldElement (schema : JsonSchema) (value : val).

Definition CollapsibleSection (schema : JsonSchema) (value : val) : element :=
  let type := getSchemaType schema in
  if type_is type "array" then ArrayFieldElement schema value
  else ObjectFieldElement schema value.

Definition FieldRenderer (schema : JsonSchema) (value : val) : element :=
  let type := getSchemaType schema in
  if type_is type "object" || type_is type "array" then
    CollapsibleSection schema value
  else PrimitiveFieldElement schema value.

(** [objValue[propName]], read among the own properties.  The properties
    that JavaScript would find on [Object.prototype] or [Array.prototype]
    are functions, numbers or objects without enumerable properties: the
    nested editors treat each of them as they treat [undefined]. *)
Definition property (h : heap) (value : val) (propName : string) : val :=
  default VUndefined (objValue h value !! propName).

(** What [objValue[propName]] reads: the own property of that name when
    [objValue] has one.  Otherwise the runtime looks along the prototype
    chain, where it finds nothing, hence [undefined], for most names, and a
    built-in member for names such as "constructor" or "toString"; which
    names those are is the runtime's, and is left open here. *)
Inductive reading :=
| OwnProperty (x : val)
| NoOwnProperty.

Definition read_property (h : heap) (value : val) (propName : string) : reading :=
  match objValue h value !! propName with
  | Some x => OwnProperty x
  | None => NoOwnProperty
  end.

(** A child that [ObjectField] renders: the component for the property's
    schema, waiting for the value, and what is read for it. *)
Record child := {
  child_editor : val → element;
  child_reading : reading;
}.

(** What [ObjectField] renders: the simple fields, then the complex ones. *)
Definition ObjectField (h : heap) (schema : JsonSchema) (value : val)
    : list (string * child) * list (string * child) :=
  ((λ '(propName, propSchema),
      (propName,
       {| child_editor := FieldRenderer propSchema;
          child_reading := read_property h value propName |}))
     <$> simpleFields schema,
   (λ '(propName, propSchema),
      (propName,
       {| child_editor := CollapsibleSection propSchema;
          child_reading := read_property h value propName |}))
     <$> complexFields schema).

(** What [ArrayField] renders: one editor per element of [arrayValue]; the
    empty list stands for the "No items" paragraph. *)
Definition ArrayField (h : heap) (schema : JsonSchema) (value : val) : list element :=
  let itemType := getSchemaType (itemSchema schema) in
  (λ item,
     if type_is itemType "object" || type_is itemType "array" then
       if type_is itemType "array" then ArrayFieldElement (itemSchema schema) item
       else ObjectFieldElement (itemSchema schema) item
     else PrimitiveFieldElement (itemSchema schema) item)
    <$> arrayValue h value.

(** ** Change propagation

    Every nested editor is given the callback
    [(v) => handlePropertyChange(propName, v)] by an object editor, or
    [(v) => handleItemChange(index, v)] by an array editor.  An edit made by
    the editor at the end of [path] therefore reaches the editor at its
    start through this chain; [edit] is the innermost editor's own
    callback, applied to the value it was given. *)
Inductive step :=
| AtProperty (propName : string)
| AtItem (index : nat).

Fixpoint propagate (path : list step) (value : val) (edit : val → M val) : M val :=
  match path with
  | [] => edit value
  | AtProperty propName :: rest =>
      child ← gets (λ h, property h value propName);
      v ← propagate rest child edit;
      handlePropertyChange value propName v
  | AtItem index :: rest =>
      child ← gets (λ h, default VUndefined (arrayValue h value !! index));
      v ← propagate rest child edit;
      handleItemChange value index v
  end.

(** The callback of a primitive editor: it hands the new value on and
    allocates nothing. *)
Definition emit (v : val) : val → M val := λ _, mret v.

(** The property key under which a step finds the child. *)
Definition step_key (s : step) : string :=
  match s with
  | AtProperty propName => propName
  | AtItem index => pretty index
  end.

(** [value[k1][k2]...], the subtree at a position; a missing property reads
    as [undefined]. *)
Fixpoint get_path (h : heap) (value : val) (keys : list string) : val :=
  match keys with
  | [] => value
  | k :: keys' => get_path h (property h value k) keys'
  end.


(** ** Schemas and a store to run the engine on *)

(** [{type: t}], or [{type: t, items: ...}] *)
Definition typed (t : string) (items : option JsonSchema) : JsonSchema :=
  {| schema_type := Some (TypeName t);
     schema_properties := None;
     schema_items := items;
     schema_enum := None;
     schema_default := VUndefined;
     schema_maxLength := None;
     schema_format := None |}.

(** The schema of the classification scenario:
    [{properties: {name: {type: "string"},
                   tags: {type: "array", items: {type: "string"}},
                   enabled: {type: "boolean"}}}] *)
Definition scenario_schema : JsonSchema :=
  {| schema_type := None;
     schema_properties :=
       Some [("name", typed "string" None);
             ("tags", typed "array" (Some (typed "string" None)));
             ("enabled", typed "boolean" None)];
     schema_items := None;
     schema_enum := None;
     schema_default := VUndefined;
     schema_maxLength := None;
     schema_format := None |}.

(** [{properties: {b: {type: "string"}, "10": {type: "string"},
                   "2": {type: "array"}, a: {type: "object"},
                   "1": {type: "string"}}}] *)
Definition indexed_names_schema : JsonSchema :=
  {| schema_type := None;
     schema_properties :=
       Some [("b", typed "string" None);
             ("10", typed "string" None);
             ("2", typed "array" None);
             ("a", typed "object" None);
             ("1", typed "string" None)];
     schema_items := None;
     schema_enum := None;
     schema_default := VUndefined;
     schema_maxLength := None;
     schema_format := None |}.

(** [{type: "boolean", enum: [true, false]}] *)
Definition boolean_enum_schema : JsonSchema :=
  {| schema_type := Some (TypeName "boolean");
     schema_properties := None;
     schema_items := None;
     schema_enum := Some [LBoolean true; LBoolean false];
     schema_default := VUndefined;
     schema_maxLength := None;
     schema_format := None |}.

(** [{enum: [1, 2, 3]}] *)
Definition number_enum_schema : JsonSchema :=
  {| schema_type := None;
     schema_properties := None;
     schema_items := None;
     schema_enum := Some [LNumber (lit 1); LNumber (lit 2); LNumber (lit 3)];
     schema_default := VUndefined;
     schema_maxLength := None;
     schema_format := None |}.

(** [{type: "string", format: "textarea"}] *)
Definition textarea_schema : JsonSchema :=
  {| schema_type := Some (TypeName "string");
     schema_properties := None;
     schema_items := None;
     schema_enum := None;
     schema_default := VUndefined;
     schema_maxLength := None;
     schema_format := Some "textarea" |}.

(** [{type: "object", properties: {a: {type: "number"}, b: {type: "string"}}}] *)
Definition object_item_schema : JsonSchema :=
  {| schema_type := Some (TypeName "object");
     schema_properties :=
       Some [("a", typed "number" None); ("b", typed "string" None)];
     schema_items := None;
     schema_enum := None;
     schema_default := VUndefined;
     schema_maxLength := None;
     schema_format := None |}.

(** A store with the array [["a", "b", "c"]] at address 1, the object
    [{a: null, extra: <the array at 1>}] at address 2 and the empty array
    at address 3. *)
Definition store0 : heap :=
  {[ 1%positive := CArray [VString "a"; VString "b"; VString "c"];
     2%positive := CObject {[ "a" := VNull; "extra" := VRef 1 ]};
     3%positive := CArray [] ]}.

End Engine.

(** * The pages and hooks around the form engine *)

(** ** JavaScript strings

    A string is the sequence of its UTF-16 code units.  The character
    classes of the regular expressions below are sets of ASCII code units,
    and every white space character of ECMAScript is one code unit, so
    [trim] and [formatLabel] are the same functions as in the runtime. *)

Abbreviation jsstring := (list N).

(** The code units of an ASCII text. *)
Definition codes (s : string) : jsstring :=
  N_of_ascii <$> list_ascii_of_string s.

(** White space and line terminators, which [trim] removes: TAB, LF, VT,
    FF, CR, SPACE, NBSP, U+1680, U+2000..U+200A, U+2028, U+2029, U+202F,
    U+205F, U+3000 and U+FEFF. *)
Definition is_whitespace (c : N) : bool :=
  (((9 <=? c) && (c <=? 13)) || (c =? 32) || (c =? 160) || (c =? 5760)
   || ((8192 <=? c) && (c <=? 8202)) || (c =? 8232) || (c =? 8233)
   || (c =? 8239) || (c =? 8287) || (c =? 12288) || (c =? 65279))%N.

Fixpoint trimStart (s : jsstring) : jsstring :=
  match s with
  | c :: s' => if is_whitespace c then trimStart s' else s
  | [] => []
  end.

Definition trimEnd (s : jsstring) : jsstring := reverse (trimStart (reverse s)).

Definition trim (s : jsstring) : jsstring := trimEnd (trimStart s).

(** [[A-Z]] *)
Definition is_upper (c : N) : bool := ((65 <=? c) && (c <=? 90))%N.

(** [[a-z]] *)
Definition is_lower (c : N) : bool := ((97 <=? c) && (c <=? 122))%N.

(** [\w], which is [[A-Za-z0-9_]] *)
Definition is_word (c : N) : bool :=
  (is_upper c || is_lower c || ((48 <=? c) && (c <=? 57)) || (c =? 95))%N.

(** [c.toUpperCase()] on a character matched by [\w] *)
Definition word_toUpperCase (c : N) : N :=
  if is_lower c then (c - 32)%N else c.

(** [formatLabel] of [SchemaForm.tsx]:
    [name.replace(/([A-Z])/g, " $1").replace(/[_-]/g, " ")
         .replace(/^\w/, (c) => c.toUpperCase()).trim()] *)
Definition space_capitals (s : jsstring) : jsstring :=
  s ≫= λ c, if is_upper c then [32%N; c] else [c].

Definition space_separators (s : jsstring) : jsstring :=
  (λ c, if ((c =? 95) || (c =? 45))%N then 32%N else c) <$> s.

Definition capitalize_first (s : jsstring) : jsstring :=
  match s with
  | c :: s' => if is_word c then word_toUpperCase c :: s' else s
  | [] => []
  end.

Definition formatLabel (name : jsstring) : jsstring :=
  trim (capitalize_first (space_separators (space_capitals name))).

(** [s.startsWith(q)], [s.endsWith(q)], [s.includes(q)] *)
Fixpoint startsWith (s q : jsstring) : bool :=
  match q, s with
  | [], _ => true
  | c :: q', d :: s' => (c =? d)%N && startsWith s' q'
  | _ :: _, [] => false
  end.

Definition endsWith (s q : jsstring) : bool := startsWith (reverse s) (reverse q).

Fixpoint includes (s q : jsstring) : bool :=
  startsWith s q
  || match s with
     | _ :: s' => includes s' q
     | [] => false
     end.

(** ** [hooks/use-modules.ts] and the lists of the pages *)

(** [scope: 'tenant' | 'subscription'] *)
Inductive scope :=
| TenantScope
| SubscriptionScope.

Definition scope_eqb (a b : scope) : bool :=
  match a, b with
  | TenantScope, TenantScope | SubscriptionScope, SubscriptionScope => true
  | _, _ => false
  end.

(** [interface Module], without the schema. *)
Record Module := {
  module_name : jsstring;
  module_path : jsstring;
  module_scope : scope;
  module_description : option jsstring;
}.

(** [interface Tenant], with the fields that the tenant list reads. *)
Record Tenant := {
  tenant_id : jsstring;
  tenant_name : option jsstring;
  subscriptionCount : nat;
  configuredModules : list jsstring;
}.

(** [useModulesByScope]: [modules] is [undefined] until the query has
    data.  The result is [(tenantModules, subscriptionModules, allModules)]. *)
Definition useModulesByScope (modules : option (list Module))
    : list Module * list Module * list Module :=
  (default []
     (List.filter (λ m, scope_eqb (module_scope m) TenantScope) <$> modules),
   default []
     (List.filter (λ m, scope_eqb (module_scope m) SubscriptionScope) <$> modules),
   default [] modules).

(** What [handleCreateTenant] of [TenantsPage] does with the two inputs of
    the dialog: an error toast, or the mutation with [id] and [name]. *)
Inductive create_outcome :=
| ToastError (message : string)
| Mutate (id : jsstring) (name : option jsstring).

Definition handleCreateTenant (newTenantId newTenantName : jsstring) : create_outcome :=
  match trim newTenantId with
  | [] => ToastError "Tenant ID is required"
  | id =>
      Mutate id
        match trim newTenantName with
        | [] => None
        | name => Some name
        end
  end.

Section Search.

(** [String.prototype.toLowerCase], which follows the Unicode case
    mappings, is the runtime's. *)
Variable toLowerCase : jsstring → jsstring.

(** [filteredTenantModules] and [filteredSubscriptionModules] of
    [ModulesPage], which differ in the list they filter. *)
Definition filteredModules (modules : list Module) (searchQuery : jsstring)
    : list Module :=
  match trim searchQuery with
  | [] => modules
  | _ =>
      let query := toLowerCase searchQuery in
      List.filter (λ m, includes (toLowerCase (module_name m)) query) modules
  end.

(** [filteredTenants] of [TenantsPage]; [tenantsData] is [undefined] until
    the query has data. *)
Definition filteredTenants (tenantsData : option (list Tenant))
    (searchQuery : jsstring) : list Tenant :=
  match tenantsData with
  | None => []
  | Some tenants =>
      match trim searchQuery with
      | [] => tenants
      | _ =>
          let query := trim (toLowerCase searchQuery) in
          List.filter
            (λ tenant,
               startsWith (toLowerCase (tenant_id tenant)) query
               || endsWith (toLowerCase (tenant_id tenant)) query)
            tenants
      end
  end.

End Search.

(** ASCII lower case, which is [toLowerCase] on ASCII texts. *)
Definition ascii_toLowerCase (s : jsstring) : jsstring :=
  (λ c, if is_upper c then (c + 32)%N else c) <$> s.

(** ** The schema that [ModuleEditorPage] hands to the form *)

Section EditorPage.
Context `{JsNumber}.

(** [delete r[key]] *)
Definition delete_property (r : val) (key : string)
    : State (gmap positive cell) () :=
  λ h,
    match r with
    | VRef l =>
        match h !! l with
        | Some (CObject props) => ((), <[l := CObject (delete key props)]> h)
        | _ => ((), h)
        end
    | _ => ((), h)
    end.

(** [const schema = moduleInfo?.schema ? { ...moduleInfo.schema }
                                       : { type: "object", properties: {} };
     delete schema.$schema; delete schema.$id;]
    with [moduleSchema] the address of [moduleInfo.schema], [None] when
    there is none. *)
Definition cleanSchema (moduleSchema : option positive)
    : State (gmap positive cell) val :=
  schema ←
    match moduleSchema with
    | Some l =>
        props ← gets (λ h, objValue h (VRef l));
        alloc (CObject props)
    | None =>
        properties ← alloc (CObject ∅);
        alloc (CObject {[ "type" := VString "object"; "properties" := properties ]})
    end;
  _ ← delete_property schema "$schema";
  _ ← delete_property schema "$id";
  mret schema.

(** [SchemaForm]: the root is rendered by the object editor, and only when
    the schema has [properties]. *)
Definition SchemaForm (schema : JsonSchema) (value : val) : option element :=
  if schema_properties schema is Some _
  then Some (ObjectFieldElement schema value)
  else None.

End EditorPage.

(** * Properties *)

Section Properties.
Context `{JsNumber}.

Abbreviation heap := (gmap positive cell).
Abbreviation M := (State heap).

Implicit Types (h : heap) (value r : val) (schema : JsonSchema).

(** ** The store *)

(** [alloc] picks an address that the store does not hold, and changes
    nothing else. *)
Lemma alloc_eq c h :
  ∃ l, h !! l = None ∧ alloc c h = (VRef l, <[l := c]> h).
Proof.
  exists (fresh (dom h)). split; [|done].
  apply not_elem_of_dom, is_fresh.
Qed.

Lemma insert_fresh_subseteq h l c : h !! l = None → h ⊆ <[l := c]> h.
Proof. intros. by apply insert_subseteq. Qed.

(** An array read through its property keys. *)
Lemma own_properties_array_index elems (i : nat) :
  own_properties (CArray elems) !! pretty i = elems !! i.
Proof. simpl. rewrite lookup_kmap by apply _. apply lookup_map_seq_0. Qed.




(** ** What each callback computes *)

Lemma handlePropertyChange_eq value propName propValue h :
  ∃ l, h !! l = None ∧
    handlePropertyChange value propName propValue h
    = (VRef l, <[l := CObject (<[propName := propValue]> (objValue h value))]> h).
Proof. apply alloc_eq. Qed.

(** The synthesizer allocates at most one empty container. *)
Lemma getDefaultValue_cases schema h :
  getDefaultValue schema h = (schema_default schema, h)
  ∨ (∃ b, getDefaultValue schema h = (VBoolean b, h))
  ∨ (∃ n, getDefaultValue schema h = (VNumber n, h))
  ∨ (∃ s, getDefaultValue schema h = (VString s, h))
  ∨ (∃ l, h !! l = None ∧
       (getDefaultValue schema h = (VRef l, <[l := CObject ∅]> h)
        ∨ getDefaultValue schema h = (VRef l, <[l := CArray []]> h))).
Proof.
  unfold getDefaultValue. destruct (schema_default schema); auto.
  repeat case_match; eauto 10.
  - destruct (alloc_eq (CObject ∅) h) as (l & ? & ->). eauto 10.
  - destruct (alloc_eq (CArray []) h) as (l & ? & ->). eauto 10.
Qed.

Lemma getDefaultValue_subseteq schema h d h1 :
  getDefaultValue schema h = (d, h1) → h ⊆ h1.
Proof.
  intros E.
  destruct (getDefaultValue_cases schema h)
    as [E'|[[? E']|[[? E']|[[? E']|(l & Hl & [E'|E'])]]]];
    rewrite E' in E; simplify_eq; auto using insert_fresh_subseteq.
Qed.

(** The container that the synthesizer may allocate is empty, so no array
    gains an element through it. *)
Lemma getDefaultValue_arrayValue schema h d h1 value :
  getDefaultValue schema h = (d, h1) → arrayValue h1 value = arrayValue h value.
Proof.
  intros E.
  destruct (getDefaultValue_cases schema h)
    as [E'|[[? E']|[[? E']|[[? E']|(l & Hl & [E'|E'])]]]];
    rewrite E' in E; simplify_eq; try done.
  all: unfold arrayValue; destruct value as [| | | | |l']; try done.
  all: destruct (decide (l = l')) as [->|];
    [by rewrite lookup_insert_eq, Hl | by rewrite lookup_insert_ne].
Qed.

Lemma handleAdd_eq schema value h d h1 :
  getDefaultValue (itemSchema schema) h = (d, h1) →
  ∃ l, h1 !! l = None ∧
    handleAdd schema value h
    = (VRef l, <[l := CArray (arrayValue h value ++ [d])]> h1).
Proof.
  intros E. unfold handleAdd, mbind, State_bind. rewrite E.
  unfold gets. rewrite (getDefaultValue_arrayValue _ _ _ _ _ E).
  apply alloc_eq.
Qed.

(** Filtering out one index is deleting the element at that index. *)
Lemma filter_from_ne {A} (xs : list A) index k :
  filter_from (λ _ i, bool_decide (i ≠ index)) k xs
  = if decide (index < k) then xs else delete (index - k) xs.
Proof.
  revert k. induction xs as [|x xs IH]; intros k; simpl.
  { by case_decide. }
  rewrite IH. repeat case_bool_decide; repeat case_decide; try lia.
  - done.
  - by replace (index - k) with (S (index - S k)) by lia.
  - subst. by rewrite Nat.sub_diag.
Qed.

Lemma handleRemove_eq value index h :
  ∃ l, h !! l = None ∧
    handleRemove value index h
    = (VRef l, <[l := CArray (delete index (arrayValue h value))]> h).
Proof.
  unfold handleRemove, mbind, State_bind, gets.
  rewrite filter_from_ne. case_decide; [lia|]. rewrite Nat.sub_0_r.
  apply alloc_eq.
Qed.

Lemma handleItemChange_eq value index itemValue h :
  ∃ l, h !! l = None ∧
    handleItemChange value index itemValue h
    = (VRef l, <[l := CArray (array_set (arrayValue h value) index itemValue)]> h).
Proof.
  unfold handleItemChange, mbind, State_bind, gets.
  destruct (alloc_eq (CArray (arrayValue h value)) h) as (l & Hl & ->).
  exists l. split; [done|]. simpl.
  by rewrite lookup_insert_eq, insert_insert_eq.
Qed.

(** [array_set] read back. *)
Lemma array_set_lookup_eq xs index v : array_set xs index v !! index = Some v.
Proof.
  unfold array_set. case_decide.
  - by apply list_lookup_insert_eq.
  - rewrite app_assoc. apply list_lookup_middle.
    rewrite length_app, length_replicate. lia.
Qed.



(** ** Structural sharing along an edited path *)



Lemma property_ref h l c k :
  h !! l = Some c → property h (VRef l) k = default VUndefined (own_properties c !! k).
Proof. unfold property, objValue. by intros ->. Qed.




(** ** Field classifier *)

Lemma filter_sublist {A} (f : A → bool) (l : list A) : List.filter f l `sublist_of` l.
Proof.
  induction l as [|x l IH]; simpl; [constructor|].
  destruct (f x); by constructor.
Qed.

Lemma filter_partition {A} (f g : A → bool) (l : list A) :
  (∀ x, g x = negb (f x)) → l ≡ₚ List.filter f l ++ List.filter g l.
Proof.
  intros Hg. induction l as [|x l IH]; simpl; [done|].
  rewrite Hg. destruct (f x); simpl.
  - by constructor.
  - rewrite <-Permutation_middle. by constructor.
Qed.

Lemma type_is_true type t : type_is type t = true ↔ type = Some t.
Proof. unfold type_is. by rewrite bool_decide_eq_true. Qed.

Lemma type_is_false type t : type_is type t = false ↔ type ≠ Some t.
Proof. unfold type_is. by rewrite bool_decide_eq_false. Qed.

(** *** The order of own properties *)

Lemma insert_by_index_Permutation {A} i (x : A) sorted :
  insert_by_index i x sorted ≡ₚ (i, x) :: sorted.
Proof.
  induction sorted as [|[j y] sorted IH]; simpl; [done|].
  destruct (i <=? j)%N; [done|]. rewrite IH. apply Permutation_swap.
Qed.

Lemma insert_by_index_sorted {A} i (x : A) sorted :
  StronglySorted N.le sorted.*1 →
  StronglySorted N.le (insert_by_index i x sorted).*1.
Proof.
  induction sorted as [|[j y] sorted IH]; simpl; intros Hsorted.
  { repeat constructor. }
  apply StronglySorted_inv in Hsorted as [Hsorted Hj].
  destruct (i <=? j)%N eqn:Hij; simpl.
  - apply N.leb_le in Hij. constructor; [by constructor|].
    constructor; [done|].
    eapply Forall_impl; [exact Hj|]. intros k Hk. simpl in *. lia.
  - apply N.leb_gt in Hij. constructor; [by apply IH|].
    rewrite insert_by_index_Permutation. simpl.
    constructor; [lia|done].
Qed.

Lemma indexed_properties_sorted {A} (properties : list (string * A)) :
  StronglySorted N.le (indexed_properties properties).*1.
Proof.
  induction properties as [|property properties IH]; simpl; [constructor|].
  destruct (array_index property.1); [|done].
  by apply insert_by_index_sorted.
Qed.

Lemma indexed_properties_index {A} (properties : list (string * A)) :
  Forall (λ ip, array_index ip.2.1 = Some ip.1) (indexed_properties properties).
Proof.
  induction properties as [|property properties IH]; simpl; [constructor|].
  destruct (array_index property.1) eqn:Hi; [|done].
  rewrite insert_by_index_Permutation. by constructor.
Qed.

Lemma indexed_properties_Permutation {A} (properties : list (string * A)) :
  (indexed_properties properties).*2
  ≡ₚ List.filter
       (λ property, if array_index property.1 is Some _ then true else false)
       properties.
Proof.
  induction properties as [|property properties IH]; simpl; [done|].
  destruct (array_index property.1) eqn:Hi; [|done].
  rewrite insert_by_index_Permutation. simpl. by constructor.
Qed.

Lemma named_properties_named {A} (properties : list (string * A)) :
  Forall (λ property, array_index property.1 = None) (named_properties properties).
Proof.
  apply Forall_forall. intros property Hin.
  apply list_elem_of_In, filter_In in Hin as [_ Hnamed].
  by destruct (array_index property.1).
Qed.

Lemma own_property_order_Permutation {A} (properties : list (string * A)) :
  own_property_order properties ≡ₚ properties.
Proof.
  unfold own_property_order. rewrite indexed_properties_Permutation.
  symmetry. apply filter_partition.
  intros property. by destruct (array_index property.1).
Qed.

(** Without a name that is an array index, the order is that of creation. *)
Lemma own_property_order_named {A} (properties : list (string * A)) :
  Forall (λ property, array_index property.1 = None) properties →
  own_property_order properties = properties.
Proof.
  intros Hnamed.
  assert (indexed_properties properties = []
          ∧ named_properties properties = properties) as [Hindexed Hrest].
  { unfold named_properties.
    induction Hnamed as [|property properties Hproperty _ [IH1 IH2]]; simpl;
      [done|].
    rewrite Hproperty. split; [done|by f_equal]. }
  unfold own_property_order. by rewrite Hindexed, Hrest.
Qed.

Lemma StronglySorted_sublist {A} (R : relation A) (l k : list A) :
  l `sublist_of` k → StronglySorted R k → StronglySorted R l.
Proof.
  induction 1 as [|x l k Hsub IH|x l k Hsub IH]; intros Hsorted; [done|..].
  - apply StronglySorted_inv in Hsorted as [Hsorted Hx].
    constructor; [by apply IH|].
    apply Forall_forall. intros y Hy.
    eapply Forall_forall; [exact Hx|]. by eapply elem_of_sublist.
  - apply StronglySorted_inv in Hsorted as [Hsorted _]. by apply IH.
Qed.

Lemma filter_fmap_snd {A B} (f : B → bool) (l : list (A * B)) :
  List.filter f l.*2 = (List.filter (λ ip, f ip.2) l).*2.
Proof.
  induction l as [|[i x] l IH]; [done|].
  rewrite fmap_cons. simpl. rewrite IH. by destruct (f x).
Qed.

(** The order of [Object.entries] among the properties [declared]: the
    fields whose name is an array index, by ascending index, and then the
    others in the order of [declared]. *)
Lemma filter_own_property_order {A} (f : string * A → bool)
    (declared : list (string * A)) :
  ∃ (indexed : list (N * (string * A))) named,
    List.filter f (own_property_order declared) = (indexed.*2 ++ named)%list
    ∧ Forall (λ ip, array_index ip.2.1 = Some ip.1) indexed
    ∧ StronglySorted N.le indexed.*1
    ∧ Forall (λ property, array_index property.1 = None) named
    ∧ named `sublist_of` declared.
Proof.
  exists (List.filter (λ ip, f ip.2) (indexed_properties declared)),
    (List.filter f (named_properties declared)).
  split_and!.
  - unfold own_property_order. by rewrite List.filter_app, filter_fmap_snd.
  - eapply Forall_forall. intros ip Hin.
    apply list_elem_of_In, filter_In in Hin as [Hin _].
    apply list_elem_of_In in Hin.
    by apply (proj1 (Forall_forall _ _) (indexed_properties_index declared)).
  - apply (StronglySorted_sublist _ _ (indexed_properties declared).*1);
      [|apply indexed_properties_sorted].
    apply fmap_sublist, filter_sublist.
  - apply Forall_forall. intros property Hin.
    apply list_elem_of_In, filter_In in Hin as [Hin _].
    apply list_elem_of_In in Hin.
    by apply (proj1 (Forall_forall _ _) (named_properties_named declared)).
  - etrans; [apply filter_sublist|]. apply filter_sublist.
Qed.

Lemma filter_true {A} (l : list A) : List.filter (λ _, true) l = l.
Proof. induction l as [|x l IH]; simpl; by f_equal. Qed.

(** C8, as the code has it.  The classifier puts a declared property in the
    complex list exactly when its resolved kind is "object" or "array" and
    in the simple list otherwise, and together the lists hold every
    declared property once.  Each list is a subsequence of the entries in
    the order of [Object.entries]: the fields whose name is an array index
    first, by ascending index, and then the others in declaration order.
    That is the declaration order when no declared name is an array index,
    as on the scenario schema, whose simple fields are name, enabled and
    whose complex field is tags. *)
Theorem classifier_stable_partition schema :
  let declared := declared_properties schema in
  let complex propSchema :=
    getSchemaType propSchema = Some "object"
    ∨ getSchemaType propSchema = Some "array" in
  let enumerated (fields : list (string * JsonSchema)) :=
    ∃ (indexed : list (N * (string * JsonSchema))) named,
      fields = (indexed.*2 ++ named)%list
      ∧ Forall (λ ip, array_index ip.2.1 = Some ip.1) indexed
      ∧ StronglySorted N.le indexed.*1
      ∧ Forall (λ property, array_index property.1 = None) named
      ∧ named `sublist_of` declared in
  (∀ entry, entry ∈ complexFields schema ↔ entry ∈ declared ∧ complex entry.2)
  ∧ (∀ entry, entry ∈ simpleFields schema ↔ entry ∈ declared ∧ ¬ complex entry.2)
  ∧ declared ≡ₚ simpleFields schema ++ complexFields schema
  ∧ entries schema ≡ₚ declared
  ∧ simpleFields schema `sublist_of` entries schema
  ∧ complexFields schema `sublist_of` entries schema
  ∧ enumerated (entries schema)
  ∧ enumerated (simpleFields schema)
  ∧ enumerated (complexFields schema)
  ∧ (Forall (λ property, array_index property.1 = None) declared →
     entries schema = declared
     ∧ simpleFields schema `sublist_of` declared
     ∧ complexFields schema `sublist_of` declared)
  ∧ (simpleFields scenario_schema).*1 = ["name"; "enabled"]
  ∧ (complexFields scenario_schema).*1 = ["tags"].
Proof.
  intros declared complex enumerated.
  assert (∀ entry, entry ∈ entries schema ↔ entry ∈ declared) as Hin.
  { intros entry. unfold entries.
    by rewrite own_property_order_Permutation. }
  unfold simpleFields, complexFields.
  split_and!.
  - intros [name propSchema]. rewrite <-Hin, !list_elem_of_In, filter_In.
    simpl. unfold complex. by rewrite orb_true_iff, !type_is_true.
  - intros [name propSchema]. rewrite <-Hin, !list_elem_of_In, filter_In.
    simpl. unfold complex.
    rewrite andb_true_iff, !negb_true_iff, !type_is_false. tauto.
  - unfold entries. fold declared.
    rewrite <-(own_property_order_Permutation declared) at 1.
    apply filter_partition. intros [name propSchema].
    by rewrite negb_andb, !negb_involutive.
  - apply own_property_order_Permutation.
  - apply filter_sublist.
  - apply filter_sublist.
  - unfold enumerated, entries. fold declared.
    rewrite <-(filter_true (own_property_order declared)).
    apply filter_own_property_order.
  - apply filter_own_property_order.
  - apply filter_own_property_order.
  - intros Hnamed. unfold entries. fold declared.
    rewrite (own_property_order_named declared Hnamed).
    split_and!; [done|apply filter_sublist..].
  - reflexivity.
  - reflexivity.
Qed.

(** ** Primitive editor *)

(** C1, as the code has it.  A node with a non-empty enum is rendered as
    the closed choice over its entries, in their order, unless its resolved
    kind is "boolean"; a boolean node is rendered as the toggle, enum or
    not. *)
Theorem closed_choice_unless_boolean schema :
  hasEnum schema = true →
  (getSchemaType schema ≠ Some "boolean" →
     ∃ es onValueChange,
       schema_enum schema = Some es
       ∧ PrimitiveField schema = Select (literal_to_string <$> es) onValueChange)
  ∧ (getSchemaType schema = Some "boolean" →
       PrimitiveField schema = Switch VBoolean).
Proof.
  intros Henum. unfold PrimitiveField. split.
  - intros Hty%type_is_false. rewrite Hty, Henum.
    unfold hasEnum in Henum.
    destruct (schema_enum schema) as [es|]; [|done]. eauto.
  - intros Hty%type_is_true. by rewrite Hty.
Qed.

Lemma find_first {A} (f : A → bool) pre e post :
  f e = true → Forall (λ x, f x = false) pre →
  List.find f (pre ++ e :: post)%list = Some e.
Proof.
  intros He. induction 1 as [|x pre Hx _ IH]; simpl.
  - by rewrite He.
  - by rewrite Hx.
Qed.

Lemma find_Some_first {A} (f : A → bool) l e :
  List.find f l = Some e →
  ∃ pre post, l = (pre ++ e :: post)%list ∧ f e = true
    ∧ Forall (λ x, f x = false) pre.
Proof.
  induction l as [|x l IH]; simpl; [done|].
  destruct (f x) eqn:Hx.
  - intros [= ->]. by exists [], l.
  - intros (pre & post & -> & He & Hpre)%IH.
    exists (x :: pre), post. split_and!; [done..|]. by constructor.
Qed.

(** C4. Whenever the editor renders the closed choice, the enum is not
    empty, the options are the string representations of its entries, and
    a selection [v] propagates the first entry whose string representation
    is [v], as the literal it is; a selection that no entry matches
    propagates the string [v].  Selecting "2" out of [1, 2, 3] propagates
    the number 2. *)
Theorem select_propagates_first_match schema options onValueChange :
  PrimitiveField schema = Select options onValueChange →
  ∃ es,
    schema_enum schema = Some es ∧ es ≠ []
    ∧ options = literal_to_string <$> es
    ∧ (∀ v pre e post,
         es = (pre ++ e :: post)%list → literal_to_string e = v →
         Forall (λ e', literal_to_string e' ≠ v) pre →
         onValueChange v = literal_value e)
    ∧ (∀ v, v ∈ options →
         ∃ pre e post,
           es = (pre ++ e :: post)%list ∧ literal_to_string e = v
           ∧ Forall (λ e', literal_to_string e' ≠ v) pre
           ∧ onValueChange v = literal_value e)
    ∧ (∀ v, v ∉ options → onValueChange v = VString v)
    ∧ (es = [LNumber (lit 1); LNumber (lit 2); LNumber (lit 3)] →
         onValueChange "2" = VNumber (lit 2)).
Proof.
  unfold PrimitiveField. intros E.
  destruct (type_is (getSchemaType schema) "boolean"); [done|].
  destruct (hasEnum schema) eqn:Henum; [|by repeat case_match].
  unfold hasEnum in Henum. unfold find_enum in E.
  destruct (schema_enum schema) as [es|]; [|done].
  injection E as <- <-. exists es.
  assert (∀ v pre e post,
    es = (pre ++ e :: post)%list → literal_to_string e = v →
    Forall (λ e', literal_to_string e' ≠ v) pre →
    match List.find (λ e0, bool_decide (literal_to_string e0 = v)) es with
    | Some enumVal => literal_value enumVal
    | None => VString v
    end = literal_value e) as Hfirst.
  { intros v pre e post -> He Hpre. rewrite find_first; [done|..].
    - by apply bool_decide_eq_true.
    - eapply Forall_impl; [done|]. intros e' ?. by apply bool_decide_eq_false. }
  split_and!; [done|by destruct es|done|done|..].
  - intros v (e & -> & He)%list_elem_of_fmap.
    destruct (List.find _ es) as [e'|] eqn:Hfind.
    + apply find_Some_first in Hfind
        as (pre & post & -> & Heq%bool_decide_eq_true & Hpre).
      exists pre, e', post. split_and!; [done..| |done].
      eapply Forall_impl; [exact Hpre|].
      intros e'' Hne. by apply bool_decide_eq_false in Hne.
    + apply list_elem_of_In in He.
      apply (find_none _ _ Hfind) in He. by apply bool_decide_eq_false in He.
  - intros v Hv. destruct (List.find _ es) as [e'|] eqn:Hfind; [|done].
    apply find_some in Hfind as [Hin Heq%bool_decide_eq_true].
    destruct Hv. apply list_elem_of_fmap. exists e'. by rewrite list_elem_of_In.
  - intros ->.
    apply (Hfirst "2" [LNumber (lit 1)] (LNumber (lit 2)) [LNumber (lit 3)]);
      [done|..]; simpl.
    + by rewrite number_to_string_lit by lia.
    + constructor; [|done]. simpl. by rewrite number_to_string_lit by lia.
Qed.

(** C9. On a node of kind "number" or "integer", every edit made by typing
    text is parsed, with [parseInt] for "integer" and with [parseFloat]
    for "number"; a text that does not parse ([NaN]) propagates
    [undefined], any other text propagates the parsed number.  The node is
    rendered as the numeric input unless it is a closed choice, which is
    not edited by typing. *)
Theorem number_input_parse schema :
  getSchemaType schema = Some "number" ∨ getSchemaType schema = Some "integer" →
  (∀ onChange text,
     text_edit (PrimitiveField schema) = Some onChange →
     let num :=
       if decide (getSchemaType schema = Some "integer")
       then parseInt10 text else parseFloat text in
     (isNaN num = true → onChange text = VUndefined)
     ∧ (isNaN num = false → onChange text = VNumber num))
  ∧ (hasEnum schema = false →
     ∃ onChange, PrimitiveField schema = NumberInput onChange)
  ∧ (hasEnum schema = true → text_edit (PrimitiveField schema) = None).
Proof.
  intros Hty. unfold PrimitiveField.
  assert (type_is (getSchemaType schema) "boolean" = false) as ->.
  { apply type_is_false. by destruct Hty as [-> | ->]. }
  assert (type_is (getSchemaType schema) "number"
          || type_is (getSchemaType schema) "integer" = true) as ->.
  { apply orb_true_iff. rewrite !type_is_true. tauto. }
  split_and!.
  - intros onChange text. destruct (hasEnum schema); [done|].
    intros [= <-]. simpl. unfold type_is.
    destruct (decide (getSchemaType schema = Some "integer")).
    + rewrite bool_decide_eq_true_2 by done. split; by intros ->.
    + rewrite bool_decide_eq_false_2 by done. split; by intros ->.
  - intros ->. by eexists.
  - by intros ->.
Qed.

(** C10. The multi-line input propagates every edit as the text itself,
    the empty text included, whereas the single-line input propagates the
    empty text as [undefined].  A node of kind "string" that is not a
    closed choice is rendered as the multi-line input when its format is
    "textarea" or its maxLength is greater than 200, and as the single-line
    input otherwise. *)
Theorem textarea_keeps_empty_string schema :
  (∀ onChange,
     PrimitiveField schema = Textarea onChange →
     onChange "" = VString "" ∧ ∀ text, onChange text = VString text)
  ∧ (∀ onChange,
       PrimitiveField schema = TextInput onChange →
       onChange "" = VUndefined ∧ ∀ text, text ≠ "" → onChange text = VString text)
  ∧ (getSchemaType schema = Some "string" →
     hasEnum schema = false →
     (schema_format schema = Some "textarea"
      ∨ (∃ m, schema_maxLength schema = Some m ∧ number_gt m (lit 200) = true) →
        ∃ onChange, PrimitiveField schema = Textarea onChange)
     ∧ (schema_format schema ≠ Some "textarea" →
        (∀ m, schema_maxLength schema = Some m → number_gt m (lit 200) = false) →
        ∃ onChange, PrimitiveField schema = TextInput onChange)).
Proof.
  split_and!.
  - unfold PrimitiveField. intros onChange E.
    repeat case_match; try done. by injection E as <-.
  - unfold PrimitiveField. intros onChange E.
    repeat case_match; try done. injection E as <-.
    split; [done|]. by intros [|? ?].
  - intros Hty Henum. unfold PrimitiveField, type_is. rewrite Henum, Hty.
    rewrite !bool_decide_eq_false_2 by done. simpl. split.
    + intros Hmulti.
      assert (isMultiline schema = true) as ->; [|by eexists].
      unfold isMultiline. apply orb_true_iff.
      destruct Hmulti as [->|(m & -> & Hgt)].
      * left. by apply bool_decide_eq_true.
      * right. rewrite Hgt, andb_true_r.
        by apply (number_gt_truthy m 200).
    + intros Hformat Hlen.
      assert (isMultiline schema = false) as ->; [|by eexists].
      unfold isMultiline. apply orb_false_iff. split.
      * by apply bool_decide_eq_false.
      * destruct (schema_maxLength schema) as [m|]; [|done].
        by rewrite (Hlen m), andb_false_r.
Qed.

(** ** Default value synthesizer *)

(** C5. The synthesizer returns [schema.default] as it is when the schema
    has one, without touching the store; otherwise the zero value of the
    resolved kind: a new empty object, a new empty array, [false], [0] or
    the empty string, which is also what any other kind gets.  Appending to an empty array whose item schema
    resolves to "object" and has no default therefore yields a one-element
    array holding a new empty object, whatever properties the item schema
    declares. *)
Theorem default_value_by_kind schema h :
  (schema_default schema ≠ VUndefined →
     getDefaultValue schema h = (schema_default schema, h))
  ∧ (schema_default schema = VUndefined →
     (getSchemaType schema = Some "object" →
        ∃ l, h !! l = None
          ∧ getDefaultValue schema h = (VRef l, <[l := CObject ∅]> h))
     ∧ (getSchemaType schema = Some "array" →
        ∃ l, h !! l = None
          ∧ getDefaultValue schema h = (VRef l, <[l := CArray []]> h))
     ∧ (getSchemaType schema = Some "boolean" →
        getDefaultValue schema h = (VBoolean false, h))
     ∧ (getSchemaType schema = Some "number"
        ∨ getSchemaType schema = Some "integer" →
        getDefaultValue schema h = (VNumber (lit 0), h))
     ∧ (getSchemaType schema = Some "string" →
        getDefaultValue schema h = (VString "", h))
     ∧ (getSchemaType schema ∉
          [Some "object"; Some "array"; Some "boolean"; Some "number";
           Some "integer"] →
        getDefaultValue schema h = (VString "", h)))
  ∧ (∀ array_schema value,
       schema_items array_schema = Some schema →
       schema_default schema = VUndefined →
       getSchemaType schema = Some "object" →
       arrayValue h value = [] →
       ∃ l1 l2 h',
         handleAdd array_schema value h = (VRef l2, h')
         ∧ h !! l1 = None ∧ h !! l2 = None
         ∧ h' !! l2 = Some (CArray [VRef l1])
         ∧ h' !! l1 = Some (CObject ∅)
         ∧ h ⊆ h').
Proof.
  assert (schema_default schema = VUndefined →
          getSchemaType schema = Some "object" →
          ∃ l, h !! l = None
            ∧ getDefaultValue schema h = (VRef l, <[l := CObject ∅]> h)) as Hobj.
  { intros Hd Hty. unfold getDefaultValue, type_is. rewrite Hd, Hty.
    rewrite bool_decide_eq_true_2 by done. apply alloc_eq. }
  split_and!.
  - unfold getDefaultValue. by destruct (schema_default schema).
  - intros Hd. split_and!; [by apply Hobj|..];
      unfold getDefaultValue, type_is; rewrite Hd.
    + intros ->. rewrite bool_decide_eq_false_2, bool_decide_eq_true_2 by done.
      apply alloc_eq.
    + by intros ->.
    + by intros [-> | ->].
    + by intros ->.
    + intros Hother. rewrite !not_elem_of_cons in Hother.
      destruct Hother as (? & ? & ? & ? & ? & _).
      by rewrite !bool_decide_eq_false_2.
  - intros array_schema value Hitems Hd Hty Hempty.
    destruct (Hobj Hd Hty) as (l1 & Hl1 & E1).
    assert (itemSchema array_schema = schema) as Hitem.
    { unfold itemSchema. by rewrite Hitems. }
    destruct (handleAdd_eq array_schema value h (VRef l1) (<[l1:=CObject ∅]> h))
      as (l2 & Hl2 & E2); [by rewrite Hitem|].
    rewrite Hempty in E2. simpl in E2.
    assert (l1 ≠ l2) by (intros ->; by rewrite lookup_insert_eq in Hl2).
    rewrite lookup_insert_ne in Hl2 by done.
    eexists l1, l2, _. split_and!; [done..| | |].
    + apply lookup_insert_eq.
    + rewrite lookup_insert_ne by done. apply lookup_insert_eq.
    + etrans; apply insert_fresh_subseteq; [done|].
      by rewrite lookup_insert_ne.
Qed.

(** ** Array editor *)

Lemma isArray_false_arrayValue h value : isArray h value = false → arrayValue h value = [].
Proof.
  unfold isArray, arrayValue. destruct value as [| | | | |l]; try done.
  by destruct (h !! l) as [[props|elems]|].
Qed.

(** C6. A node declared "array" is dispatched to the array editor whatever
    its value is.  When the value is not an array, the editor works on the
    empty sequence, renders no item, and an append yields a new array with
    one element, the synthesized default; the store is otherwise as
    before. *)
Theorem array_kind_is_stable schema value h :
  schema_type schema = Some (TypeName "array")
  ∨ (∃ ts, schema_type schema = Some (TypeList ("array" :: ts))) →
  isArray h value = false →
  (∀ value', CollapsibleSection schema value' = ArrayFieldElement schema value')
  ∧ (∀ value', FieldRenderer schema value' = ArrayFieldElement schema value')
  ∧ arrayValue h value = []
  ∧ ArrayField h schema value = []
  ∧ ∃ l d h1,
      getDefaultValue (itemSchema schema) h = (d, h1)
      ∧ h ⊆ h1 ∧ h1 !! l = None
      ∧ handleAdd schema value h = (VRef l, <[l := CArray [d]]> h1).
Proof.
  intros Hdecl Harr.
  assert (getSchemaType schema = Some "array") as Hty.
  { unfold getSchemaType. by destruct Hdecl as [-> | [ts ->]]. }
  pose proof (isArray_false_arrayValue _ _ Harr) as Hempty.
  split_and!.
  - intros value'. unfold CollapsibleSection, type_is. rewrite Hty.
    by rewrite bool_decide_eq_true_2.
  - intros value'. unfold FieldRenderer, CollapsibleSection, type_is. rewrite Hty.
    by rewrite bool_decide_eq_false_2, bool_decide_eq_true_2.
  - done.
  - unfold ArrayField. by rewrite Hempty.
  - destruct (getDefaultValue (itemSchema schema) h) as [d h1] eqn:E.
    destruct (handleAdd_eq _ value _ _ _ E) as (l & Hl & E').
    rewrite Hempty in E'. exists l, d, h1.
    split_and!; [done| |done..]. by eapply getDefaultValue_subseteq.
Qed.

(** C7. Removing index [i] from an array of [n] elements, [i < n], yields
    a new array of [n - 1] elements: those before [i] keep their positions,
    those after [i] move down by one, and each is the element it was. *)
Theorem remove_shifts_down h l0 elems index :
  h !! l0 = Some (CArray elems) →
  index < length elems →
  ∃ l elems',
    handleRemove (VRef l0) index h = (VRef l, <[l := CArray elems']> h)
    ∧ h !! l = None
    ∧ S (length elems') = length elems
    ∧ (∀ j : nat, j < index → elems' !! j = elems !! j)
    ∧ (∀ j : nat, (index ≤ j)%nat → elems' !! j = elems !! S j).
Proof.
  intros Hl0 Hlt.
  destruct (handleRemove_eq (VRef l0) index h) as (l & Hl & E).
  simpl in E. rewrite Hl0 in E.
  exists l, (delete index elems). split_and!; [done..| | |].
  - rewrite length_delete; [lia|]. by apply lookup_lt_is_Some.
  - intros j Hj. by apply list_lookup_delete_lt.
  - intros j Hj. by apply list_lookup_delete_ge.
Qed.

(** ** Object editor *)

(** C3. When the value holds a key that the schema does not declare, a
    change of a declared property yields a new object that holds the key
    with the value it had. *)
Theorem unknown_property_preserved schema value h k x propName propValue :
  objValue h value !! k = Some x →
  k ∉ (entries schema).*1 →
  propName ∈ (entries schema).*1 →
  ∃ l props,
    handlePropertyChange value propName propValue h
    = (VRef l, <[l := CObject props]> h)
    ∧ h !! l = None
    ∧ props !! k = Some x
    ∧ props !! propName = Some propValue.
Proof.
  intros Hk Hunknown Hdeclared.
  destruct (handlePropertyChange_eq value propName propValue h) as (l & Hl & E).
  eexists l, _. split_and!; [done..| |].
  - rewrite lookup_insert_ne; [done|]. by intros ->.
  - apply lookup_insert_eq.
Qed.

(** ** Change propagation *)


End Properties.

(** * The engine on concrete inputs, over the integer runtime *)

Section Concrete.
Import IntRuntime.

(** C8, as stated, fails: for the properties declared b, "10", "2", a, "1"
    the simple fields are 1, 10, b and the complex fields are 2, a; the
    simple fields are not in the order of the declaration, where b comes
    first. *)
Lemma indexed_names_leave_declaration_order :
  (declared_properties indexed_names_schema).*1 = ["b"; "10"; "2"; "a"; "1"]
  ∧ (simpleFields indexed_names_schema).*1 = ["1"; "10"; "b"]
  ∧ (complexFields indexed_names_schema).*1 = ["2"; "a"]
  ∧ ¬ simpleFields indexed_names_schema
      `sublist_of` declared_properties indexed_names_schema.
Proof.
  split; [reflexivity|]. split; [reflexivity|]. split; [reflexivity|].
  intros Hsub. apply (fmap_sublist fst) in Hsub.
  change (_.*1) with ["b"; "10"; "2"; "a"; "1"] in Hsub at 2.
  change (_.*1) with ["1"; "10"; "b"] in Hsub.
  repeat match goal with
         | Hs : _ `sublist_of` _ |- _ => inversion Hs; clear Hs; subst
         end.
Qed.

Lemma classifier_stable_partition_witness :
  Forall (λ property, array_index property.1 = None)
    (declared_properties scenario_schema)
  ∧ entries scenario_schema = declared_properties scenario_schema
  ∧ simpleFields scenario_schema `sublist_of` declared_properties scenario_schema
  ∧ complexFields scenario_schema `sublist_of` declared_properties scenario_schema.
Proof.
  assert (Forall (λ property : string * JsonSchema, array_index property.1 = None)
            (declared_properties scenario_schema)) as Hnamed.
  { repeat constructor. }
  split; [exact Hnamed|].
  destruct (classifier_stable_partition scenario_schema)
    as (_ & _ & _ & _ & _ & _ & _ & _ & _ & Horder & _).
  exact (Horder Hnamed).
Defined.

(** C1, as stated, fails: the node [{type: "boolean", enum: [true, false]}]
    has a non-empty enum and is rendered as the toggle. *)
Lemma boolean_enum_renders_toggle :
  hasEnum boolean_enum_schema = true
  ∧ PrimitiveField boolean_enum_schema = Switch VBoolean
  ∧ ¬ (∀ schema : JsonSchema,
         hasEnum schema = true → is_closed_choice (PrimitiveField schema) = true).
Proof.
  split; [reflexivity|]. split; [reflexivity|].
  intros Hclaim. specialize (Hclaim boolean_enum_schema eq_refl).
  discriminate Hclaim.
Qed.

Lemma closed_choice_unless_boolean_witness :
  hasEnum number_enum_schema = true
  ∧ getSchemaType number_enum_schema ≠ Some "boolean"
  ∧ is_closed_choice (PrimitiveField number_enum_schema) = true.
Proof.
  split; [reflexivity|]. split; [discriminate|].
  destruct (closed_choice_unless_boolean number_enum_schema eq_refl) as [Hselect _].
  destruct Hselect as (es & onValueChange & _ & ->); [discriminate|reflexivity].
Defined.

Lemma select_propagates_first_match_witness :
  ∃ options onValueChange,
    PrimitiveField number_enum_schema = Select options onValueChange
    ∧ options = ["1"; "2"; "3"]
    ∧ onValueChange "2" = VNumber (lit 2).
Proof.
  eexists _, _. split; [reflexivity|]. split; [reflexivity|].
  destruct (select_propagates_first_match number_enum_schema _ _ eq_refl)
    as (es & Hes & _ & _ & _ & _ & _ & Hexample).
  apply Hexample. injection Hes as <-. reflexivity.
Defined.

Lemma number_input_parse_witness :
  getSchemaType (typed "integer" None) = Some "integer"
  ∧ ∃ onChange,
      text_edit (PrimitiveField (typed "integer" None)) = Some onChange
      ∧ onChange "abc" = VUndefined
      ∧ onChange "42" = VNumber (lit 42).
Proof.
  split; [reflexivity|].
  destruct (number_input_parse (typed "integer" None)) as (Hparse & _ & _);
    [right; reflexivity|].
  eexists. split; [reflexivity|]. split.
  - destruct (Hparse _ "abc" eq_refl) as [Hnan _]. exact (Hnan eq_refl).
  - destruct (Hparse _ "42" eq_refl) as [_ Hnum]. exact (Hnum eq_refl).
Defined.

Lemma textarea_keeps_empty_string_witness :
  getSchemaType textarea_schema = Some "string"
  ∧ hasEnum textarea_schema = false
  ∧ schema_format textarea_schema = Some "textarea"
  ∧ (∃ onChange,
       PrimitiveField textarea_schema = Textarea onChange
       ∧ onChange "" = VString "")
  ∧ (∃ onChange,
       PrimitiveField (typed "string" None) = TextInput onChange
       ∧ onChange "" = VUndefined).
Proof.
  split; [reflexivity|]. split; [reflexivity|]. split; [reflexivity|].
  split.
  - destruct (textarea_keeps_empty_string textarea_schema) as (Harea & _ & Hkind).
    destruct (Hkind eq_refl eq_refl) as [Hmulti _].
    destruct Hmulti as [onChange E]; [left; reflexivity|].
    exists onChange. split; [exact E|]. apply (Harea onChange E).
  - destruct (textarea_keeps_empty_string (typed "string" None)) as (_ & Hline & _).
    eexists. split; [reflexivity|]. apply (Hline _ eq_refl).
Defined.

Lemma default_value_by_kind_witness :
  schema_items (typed "array" (Some object_item_schema)) = Some object_item_schema
  ∧ schema_default object_item_schema = VUndefined
  ∧ getSchemaType object_item_schema = Some "object"
  ∧ arrayValue store0 (VRef 3) = []
  ∧ ∃ l1 l2 h',
      handleAdd (typed "array" (Some object_item_schema)) (VRef 3) store0
      = (VRef l2, h')
      ∧ h' !! l2 = Some (CArray [VRef l1])
      ∧ h' !! l1 = Some (CObject ∅).
Proof.
  split; [reflexivity|]. split; [reflexivity|]. split; [reflexivity|].
  split; [reflexivity|].
  destruct (default_value_by_kind object_item_schema store0) as (_ & _ & Happend).
  destruct (Happend (typed "array" (Some object_item_schema)) (VRef 3))
    as (l1 & l2 & h' & E & _ & _ & Hl2 & Hl1 & _); [reflexivity..|].
  exists l1, l2, h'. split; [exact E|]. split; [exact Hl2|exact Hl1].
Defined.

Lemma array_kind_is_stable_witness :
  schema_type (typed "array" None) = Some (TypeName "array")
  ∧ isArray store0 VNull = false
  ∧ FieldRenderer (typed "array" None) VNull
    = ArrayFieldElement (typed "array" None) VNull
  ∧ ∃ l h1,
      handleAdd (typed "array" None) VNull store0
      = (VRef l, <[l := CArray [VString ""]]> h1).
Proof.
  split; [reflexivity|]. split; [reflexivity|].
  destruct (array_kind_is_stable (typed "array" None) VNull store0)
    as (_ & Hrender & _ & _ & l & d & h1 & Hd & _ & _ & E);
    [left; reflexivity|reflexivity|].
  split; [apply Hrender|].
  exists l, h1. rewrite E. injection Hd as <- _. reflexivity.
Defined.

Lemma remove_shifts_down_witness :
  store0 !! 1%positive = Some (CArray [VString "a"; VString "b"; VString "c"])
  ∧ 1 < length [VString "a"; VString "b"; VString "c"]
  ∧ ∃ l elems',
      handleRemove (VRef 1) 1 store0 = (VRef l, <[l := CArray elems']> store0)
      ∧ elems' !! 0%nat = Some (VString "a")
      ∧ elems' !! 1%nat = Some (VString "c")
      ∧ length elems' = 2.
Proof.
  split; [reflexivity|]. split; [simpl; lia|].
  destruct (remove_shifts_down store0 1 [VString "a"; VString "b"; VString "c"] 1)
    as (l & elems' & E & _ & Hlen & Hbefore & Hafter); [reflexivity|simpl; lia|].
  exists l, elems'. split; [exact E|].
  split; [rewrite Hbefore by lia; reflexivity|].
  split; [rewrite Hafter by lia; reflexivity|].
  simpl in Hlen. lia.
Defined.

Lemma unknown_property_preserved_witness :
  objValue store0 (VRef 2) !! "extra" = Some (VRef 1)
  ∧ ("extra" ∉ (entries object_item_schema).*1)
  ∧ ("a" ∈ (entries object_item_schema).*1)
  ∧ ∃ l props,
      handlePropertyChange (VRef 2) "a" (VNumber (lit 7)) store0
      = (VRef l, <[l := CObject props]> store0)
      ∧ props !! "extra" = Some (VRef 1)
      ∧ props !! "a" = Some (VNumber (lit 7)).
Proof.
  assert ("extra" ∉ (entries object_item_schema).*1) as Hunknown.
  { apply (bool_decide_unpack _). vm_compute. exact I. }
  assert ("a" ∈ (entries object_item_schema).*1) as Hdeclared.
  { apply (bool_decide_unpack _). vm_compute. exact I. }
  split; [reflexivity|]. split; [exact Hunknown|].
  split; [exact Hdeclared|].
  destruct (unknown_property_preserved object_item_schema (VRef 2) store0
              "extra" (VRef 1) "a" (VNumber (lit 7)))
    as (l & props & E & _ & Hextra & Ha); [reflexivity|done..|].
  exists l, props. split; [exact E|]. split; [exact Hextra|exact Ha].
Defined.


End Concrete.

(** * Properties of the strings, lists and pages *)

Section StringProperties.

Local Close Scope string_scope.

Implicit Types (s q : jsstring) (c : N).

Ltac solve_char_class :=
  repeat match goal with
    | H : is_lower _ = true |- _ => unfold is_lower in H
    | H : is_upper _ = true |- _ => unfold is_upper in H
    | H : (_ && _)%bool = true |- _ => apply andb_true_iff in H as [? ?]
    | H : (_ <=? _)%N = true |- _ => apply N.leb_le in H
    end;
  unfold is_whitespace, is_word, is_upper, is_lower;
  repeat match goal with
    | |- context [(?a <=? ?b)%N] => destruct (N.leb_spec a b); try lia
    | |- context [(?a =? ?b)%N] => destruct (N.eqb_spec a b); try lia
    end;
  simpl; try done; try lia.

Lemma lower_not_whitespace c : is_lower c = true → is_whitespace c = false.
Proof. intros. solve_char_class. Qed.

Lemma upper_not_whitespace c : is_upper c = true → is_whitespace c = false.
Proof. intros. solve_char_class. Qed.

Lemma capital_of_lower_not_whitespace c :
  is_lower c = true → is_whitespace (c - 32) = false.
Proof. intros. solve_char_class. Qed.

(** *** [trim] *)

Lemma trimStart_split s :
  ∃ pre, s = pre ++ trimStart s ∧ Forall (λ c, is_whitespace c = true) pre.
Proof.
  induction s as [|c s (pre & Hs & Hpre)]; simpl.
  - by exists [].
  - destruct (is_whitespace c) eqn:Hc.
    + exists (c :: pre). split; [by rewrite Hs at 1|by constructor].
    + by exists [].
Qed.

Lemma trimStart_head s c : head (trimStart s) = Some c → is_whitespace c = false.
Proof.
  induction s as [|d s IH]; simpl; [done|].
  destruct (is_whitespace d) eqn:Hd; [done|]. simpl. congruence.
Qed.

Lemma trimStart_app s c s' :
  is_whitespace c = false → trimStart (s ++ c :: s') = trimStart s ++ c :: s'.
Proof.
  intros Hc. induction s as [|d s IH]; simpl; [by rewrite Hc|].
  by destruct (is_whitespace d).
Qed.

Lemma trimEnd_cons c s :
  is_whitespace c = false → ∃ tail, trimEnd (c :: s) = c :: tail.
Proof.
  intros Hc. unfold trimEnd. rewrite reverse_cons.
  replace (reverse s ++ [c]) with (reverse s ++ c :: []) by done.
  rewrite trimStart_app by done. rewrite reverse_app. simpl. eauto.
Qed.

Lemma trim_cons c s :
  is_whitespace c = false → ∃ tail, trim (c :: s) = c :: tail.
Proof. intros Hc. unfold trim. simpl. rewrite Hc. by apply trimEnd_cons. Qed.

Lemma trim_split s :
  ∃ pre post,
    s = pre ++ trim s ++ post
    ∧ Forall (λ c, is_whitespace c = true) pre
    ∧ Forall (λ c, is_whitespace c = true) post.
Proof.
  destruct (trimStart_split s) as (pre & Hs & Hpre).
  destruct (trimStart_split (reverse (trimStart s))) as (post & Hr & Hpost).
  exists pre, (reverse post). split_and!; [|done|by apply Forall_reverse].
  rewrite Hs at 1. f_equal. unfold trim, trimEnd.
  rewrite <-reverse_app, <-Hr. by rewrite reverse_involutive.
Qed.

Lemma trim_head s c : head (trim s) = Some c → is_whitespace c = false.
Proof.
  unfold trim. destruct (trimStart s) as [|d s'] eqn:Hs; [done|].
  assert (is_whitespace d = false) as Hd.
  { apply (trimStart_head s). by rewrite Hs. }
  destruct (trimEnd_cons d s' Hd) as [tail ->]. simpl. congruence.
Qed.

Lemma trim_last s c : last (trim s) = Some c → is_whitespace c = false.
Proof.
  unfold trim, trimEnd. rewrite last_reverse. apply trimStart_head.
Qed.

Lemma trim_elem_of s c : c ∈ trim s → c ∈ s.
Proof.
  destruct (trim_split s) as (pre & post & Hs & _). intros Hc.
  rewrite Hs, !elem_of_app. auto.
Qed.

(** *** [formatLabel] *)

Lemma space_separators_clean s :
  Forall (λ c, c ≠ 95%N ∧ c ≠ 45%N) (space_separators s).
Proof.
  unfold space_separators. apply Forall_fmap, Forall_true. intros c. simpl.
  destruct (N.eqb_spec c 95), (N.eqb_spec c 45); simpl; lia.
Qed.

Lemma capitalize_first_clean s :
  Forall (λ c, c ≠ 95%N ∧ c ≠ 45%N) s →
  Forall (λ c, c ≠ 95%N ∧ c ≠ 45%N) (capitalize_first s).
Proof.
  destruct 1 as [|c s Hc Hs]; simpl; [done|].
  destruct (is_word c); [|by constructor]. constructor; [|done].
  unfold word_toUpperCase. destruct (is_lower c) eqn:Hl; [|done].
  unfold is_lower in Hl. apply andb_true_iff in Hl as [?%N.leb_le ?%N.leb_le]. lia.
Qed.

(** X1. A label holds no underscore and no hyphen, and neither starts nor
    ends with white space. *)
Theorem formatLabel_is_clean (name : jsstring) :
  Forall (λ c, c ≠ 95%N ∧ c ≠ 45%N) (formatLabel name)
  ∧ (∀ c, head (formatLabel name) = Some c → is_whitespace c = false)
  ∧ (∀ c, last (formatLabel name) = Some c → is_whitespace c = false).
Proof.
  unfold formatLabel. split_and!.
  - apply Forall_forall. intros c Hc%trim_elem_of. revert c Hc.
    apply Forall_forall, capitalize_first_clean, space_separators_clean.
  - apply trim_head.
  - apply trim_last.
Qed.

(** X2. The first character of a label.  A name that starts with a
    lower-case letter gets it in upper case; a name that starts with an
    upper-case letter keeps it, the space put before it being trimmed;
    but in a name that starts with an underscore or a hyphen the
    lower-case letter after it is left in lower case. *)
Theorem formatLabel_first_character c rest :
  (is_lower c = true → ∃ tail, formatLabel (c :: rest) = (c - 32)%N :: tail)
  ∧ (is_upper c = true → ∃ tail, formatLabel (c :: rest) = c :: tail)
  ∧ (∀ sep, sep = 95%N ∨ sep = 45%N → is_lower c = true →
       ∃ tail, formatLabel (sep :: c :: rest) = c :: tail).
Proof.
  unfold formatLabel, space_capitals, space_separators. split_and!.
  - intros Hc. simpl.
    assert (is_upper c = false) as -> by (clear -Hc; solve_char_class).
    simpl.
    assert (((c =? 95) || (c =? 45))%N = false) as -> by (clear -Hc; solve_char_class).
    assert (is_word c = true) as -> by (clear -Hc; solve_char_class).
    unfold word_toUpperCase. rewrite Hc.
    by apply trim_cons, capital_of_lower_not_whitespace.
  - intros Hc. simpl. rewrite Hc. simpl.
    assert (((c =? 95) || (c =? 45))%N = false) as -> by (clear -Hc; solve_char_class).
    unfold trim. simpl. rewrite (upper_not_whitespace c Hc).
    by apply trimEnd_cons, upper_not_whitespace.
  - intros sep Hsep Hc. simpl.
    assert (is_upper sep = false) as -> by (destruct Hsep as [-> | ->]; done).
    assert (is_upper c = false) as -> by (clear -Hc; solve_char_class).
    simpl.
    assert (((sep =? 95) || (sep =? 45))%N = true) as ->
      by (destruct Hsep as [-> | ->]; done).
    assert (((c =? 95) || (c =? 45))%N = false) as -> by (clear -Hc; solve_char_class).
    unfold trim. simpl. rewrite (lower_not_whitespace c Hc).
    by apply trimEnd_cons, lower_not_whitespace.
Qed.

(** *** [handleCreateTenant] *)

(** X3. The tenant dialog never submits a blank id: an id of white space
    only gives the error toast and no mutation.  What is submitted is the
    trimmed id, which is not empty and has no white space at either end,
    and the trimmed name, or no name when the name is blank. *)
Theorem handleCreateTenant_submits_trimmed newTenantId newTenantName :
  (trim newTenantId = [] →
     handleCreateTenant newTenantId newTenantName
     = ToastError "Tenant ID is required"%string)
  ∧ (∀ id name,
       handleCreateTenant newTenantId newTenantName = Mutate id name →
       id = trim newTenantId ∧ id ≠ []
       ∧ (∀ c, head id = Some c → is_whitespace c = false)
       ∧ (∀ c, last id = Some c → is_whitespace c = false)
       ∧ (trim newTenantName = [] → name = None)
       ∧ (trim newTenantName ≠ [] → name = Some (trim newTenantName))).
Proof.
  unfold handleCreateTenant. split.
  - by intros ->.
  - intros id name. destruct (trim newTenantId) as [|c s] eqn:Hid; [done|].
    intros [= <- <-]. split_and!; [done..| | | |].
    + rewrite <-Hid. apply trim_head.
    + rewrite <-Hid. apply trim_last.
    + by intros ->.
    + by destruct (trim newTenantName).
Qed.

(** *** [startsWith], [endsWith], [includes] *)

Lemma startsWith_prefix s q : startsWith s q = true ↔ q `prefix_of` s.
Proof.
  revert s. induction q as [|c q IH]; intros s; simpl.
  - split; [intros _; apply prefix_nil|by destruct s].
  - destruct s as [|d s]; simpl.
    + split; [done|]. by intros ?%prefix_nil_not.
    + rewrite andb_true_iff, N.eqb_eq, IH. split.
      * intros [-> ?]. by apply prefix_cons.
      * intros Hp. split; [by apply prefix_cons_inv_1 in Hp|by apply prefix_cons_inv_2 in Hp].
Qed.

Lemma endsWith_suffix s q : endsWith s q = true ↔ q `suffix_of` s.
Proof.
  unfold endsWith. rewrite startsWith_prefix. symmetry. apply suffix_prefix_reverse.
Qed.

Lemma includes_infix s q :
  includes s q = true ↔ ∃ pre post, s = pre ++ q ++ post.
Proof.
  induction s as [|d s IH]; cbn [includes].
  - rewrite orb_false_r, startsWith_prefix. split.
    + intros [post ->]. by exists [], post.
    + intros (pre & post & Hs). destruct pre; [|done]. by exists post.
  - rewrite orb_true_iff, startsWith_prefix, IH. split.
    + intros [[post ->]|(pre & post & ->)].
      * by exists [], post.
      * by exists (d :: pre), post.
    + intros ([|d' pre] & post & Hs).
      * left. by exists post.
      * right. exists pre, post. by injection Hs.
Qed.

Lemma includes_refl s : includes s s = true.
Proof. apply includes_infix. exists [], []. by rewrite app_nil_r. Qed.

Lemma includes_trans s q1 q2 :
  includes s q2 = true → includes q2 q1 = true → includes s q1 = true.
Proof.
  rewrite !includes_infix. intros (pre & post & ->) (pre' & post' & ->).
  exists (pre ++ pre'), (post' ++ post). by rewrite <-!app_assoc.
Qed.

Lemma filter_sublist_impl {A} (f g : A → bool) (l : list A) :
  (∀ x, f x = true → g x = true) →
  List.filter f l `sublist_of` List.filter g l.
Proof.
  intros Hfg. induction l as [|x l IH]; simpl; [done|].
  destruct (f x) eqn:Hf.
  - rewrite (Hfg x Hf). by constructor.
  - destruct (g x); [by constructor|done].
Qed.

(** *** [useModulesByScope] *)

(** X4. The tenant modules and the subscription modules are the modules of
    their scope, each list in the order of the modules of the query, and
    every module is in exactly one of them; all three lists are empty
    while the query has no data. *)
Theorem modules_by_scope_partition (modules : option (list Module)) :
  let '(tenantModules, subscriptionModules, allModules) :=
    useModulesByScope modules in
  allModules = default [] modules
  ∧ allModules ≡ₚ tenantModules ++ subscriptionModules
  ∧ tenantModules `sublist_of` allModules
  ∧ subscriptionModules `sublist_of` allModules
  ∧ (∀ m, m ∈ tenantModules ↔ m ∈ allModules ∧ module_scope m = TenantScope)
  ∧ (∀ m, m ∈ subscriptionModules
          ↔ m ∈ allModules ∧ module_scope m = SubscriptionScope)
  ∧ (modules = None → tenantModules = [] ∧ subscriptionModules = []).
Proof.
  destruct modules as [ms|]; simpl.
  - split_and!; [done| |apply filter_sublist|apply filter_sublist| | |done].
    + apply filter_partition. intros m. by destruct (module_scope m).
    + intros m. rewrite !list_elem_of_In, filter_In.
      destruct (module_scope m); simpl; intuition congruence.
    + intros m. rewrite !list_elem_of_In, filter_In.
      destruct (module_scope m); simpl; intuition congruence.
  - split_and!; try done; intros m; rewrite elem_of_nil; tauto.
Qed.

(** *** The search boxes *)

Section Search.
Variable toLowerCase : jsstring → jsstring.

(** X5. The module search keeps the order of the modules and invents none;
    a blank query shows them all; a module whose name is the query, up to
    case, is found; and a query whose lower case holds the lower case of
    another finds no module that the other does not find. *)
Theorem module_search_narrows (modules : list Module) (searchQuery : jsstring) :
  filteredModules toLowerCase modules searchQuery `sublist_of` modules
  ∧ (trim searchQuery = [] →
     filteredModules toLowerCase modules searchQuery = modules)
  ∧ (∀ m, m ∈ modules →
       toLowerCase (module_name m) = toLowerCase searchQuery →
       m ∈ filteredModules toLowerCase modules searchQuery)
  ∧ (∀ longer,
       trim longer ≠ [] →
       includes (toLowerCase longer) (toLowerCase searchQuery) = true →
       filteredModules toLowerCase modules longer
       `sublist_of` filteredModules toLowerCase modules searchQuery).
Proof.
  unfold filteredModules. split_and!.
  - destruct (trim searchQuery); [done|apply filter_sublist].
  - by intros ->.
  - intros m Hm Hname. destruct (trim searchQuery); [done|].
    apply list_elem_of_In, filter_In. split; [by apply list_elem_of_In|].
    rewrite Hname. apply includes_refl.
  - intros longer Hlonger Hinc.
    destruct (trim longer) as [|c l]; [done|].
    destruct (trim searchQuery).
    + apply filter_sublist.
    + apply filter_sublist_impl. intros m Hm. by eapply includes_trans.
Qed.

(** X6. The tenant search shows nothing while the query has no data and
    every tenant for a blank query; otherwise it keeps the order of the
    tenants and invents none, and it finds every tenant whose id, in lower
    case, starts or ends with the trimmed lower-case query, the tenant
    whose id is the query among them. *)
Theorem tenant_search_by_prefix_or_suffix
    (tenants : list Tenant) (searchQuery : jsstring) :
  filteredTenants toLowerCase None searchQuery = []
  ∧ filteredTenants toLowerCase (Some tenants) searchQuery `sublist_of` tenants
  ∧ (trim searchQuery = [] →
     filteredTenants toLowerCase (Some tenants) searchQuery = tenants)
  ∧ (∀ tenant,
       trim searchQuery ≠ [] →
       (tenant ∈ filteredTenants toLowerCase (Some tenants) searchQuery
        ↔ tenant ∈ tenants
          ∧ (trim (toLowerCase searchQuery)
               `prefix_of` toLowerCase (tenant_id tenant)
             ∨ trim (toLowerCase searchQuery)
               `suffix_of` toLowerCase (tenant_id tenant))))
  ∧ (∀ tenant,
       tenant ∈ tenants →
       toLowerCase (tenant_id tenant) = trim (toLowerCase searchQuery) →
       tenant ∈ filteredTenants toLowerCase (Some tenants) searchQuery).
Proof.
  unfold filteredTenants. split_and!.
  - done.
  - destruct (trim searchQuery); [done|apply filter_sublist].
  - by intros ->.
  - intros tenant Hq. destruct (trim searchQuery); [done|].
    rewrite !list_elem_of_In, filter_In, orb_true_iff.
    by rewrite startsWith_prefix, endsWith_suffix.
  - intros tenant Hin Hid. destruct (trim searchQuery); [done|].
    apply list_elem_of_In, filter_In. split; [by apply list_elem_of_In|].
    apply orb_true_iff. left. apply startsWith_prefix. by rewrite Hid.
Qed.

End Search.

End StringProperties.

(** * Further properties of the form engine *)

Section EngineProperties.
Context `{JsNumber}.

Local Open Scope list_scope.

Abbreviation heap := (gmap positive cell).

Implicit Types (h : heap) (value r : val) (schema : JsonSchema).

(** ** Schema type resolver *)

(** X7. The resolver gives [undefined] only for an empty list of types.  A
    non-empty type name or the first type of a list wins over everything
    else; without one, the result is "object" when there are properties,
    else "array" when there are items, else "string". *)
Theorem getSchemaType_resolution schema :
  (getSchemaType schema = None ↔ schema_type schema = Some (TypeList []))
  ∧ (∀ t, t ≠ "" → schema_type schema = Some (TypeName t) →
       getSchemaType schema = Some t)
  ∧ (∀ t ts, schema_type schema = Some (TypeList (t :: ts)) →
       getSchemaType schema = Some t)
  ∧ (schema_type schema = None ∨ schema_type schema = Some (TypeName "") →
     (is_Some (schema_properties schema) → getSchemaType schema = Some "object")
     ∧ (schema_properties schema = None → is_Some (schema_items schema) →
        getSchemaType schema = Some "array")
     ∧ (schema_properties schema = None → schema_items schema = None →
        getSchemaType schema = Some "string")).
Proof.
  unfold getSchemaType. split_and!.
  - destruct (schema_type schema) as [[[|a t]|[|t ts]]|]; simpl;
      repeat case_match; split; congruence.
  - intros [|a t] Ht ->; done.
  - by intros t ts ->.
  - intros Hty.
    assert (match schema_type schema with
            | Some (TypeList ts) => ts !! 0%nat
            | Some (TypeName (String _ _ as t)) => Some t
            | _ =>
                if schema_properties schema is Some _ then Some "object"
                else if schema_items schema is Some _ then Some "array"
                else if schema_enum schema is Some _ then Some "string"
                else Some "string"
            end
            = if schema_properties schema is Some _ then Some "object"
              else if schema_items schema is Some _ then Some "array"
              else Some "string") as ->.
    { destruct Hty as [-> | ->]; by repeat case_match. }
    split_and!.
    + by intros [? ->].
    + by intros -> [? ->].
    + by intros -> ->.
Qed.

(** ** Closed choice *)

Lemma literal_value_inj (e1 e2 : literal) :
  literal_value e1 = literal_value e2 → e1 = e2.
Proof. destruct e1, e2; simpl; congruence. Qed.

Lemma Select_inv schema options onValueChange :
  PrimitiveField schema = Select options onValueChange →
  ∃ es,
    schema_enum schema = Some es
    ∧ onValueChange
      = λ v, match List.find (λ e, bool_decide (literal_to_string e = v)) es with
             | Some enumVal => literal_value enumVal
             | None => VString v
             end.
Proof.
  unfold PrimitiveField, hasEnum, find_enum.
  destruct (schema_enum schema) as [es|]; repeat case_match; try done.
  subst. intros [= _ <-]. by eexists.
Qed.

(** X8. When the entries of the enum have pairwise different string
    representations, selecting the representation of an entry propagates
    that entry: what the closed choice shows for a value of the enum
    selects the same value. *)
Theorem select_round_trip schema options onValueChange es :
  PrimitiveField schema = Select options onValueChange →
  schema_enum schema = Some es →
  NoDup (literal_to_string <$> es) →
  ∀ e, e ∈ es → onValueChange (literal_to_string e) = literal_value e.
Proof.
  intros (es' & Hes & ->)%Select_inv Hes' Hnodup e He.
  rewrite Hes in Hes'. injection Hes' as ->.
  destruct (List.find _ es) as [e'|] eqn:Hfind.
  - apply find_some in Hfind as [Hin Heq%bool_decide_eq_true].
    apply list_elem_of_In in Hin. f_equal.
    apply list_elem_of_lookup in He as [i Hi].
    apply list_elem_of_lookup in Hin as [j Hj].
    assert (i = j) as ->; [|congruence].
    eapply NoDup_lookup; [done|..]; rewrite list_lookup_fmap.
    + by rewrite Hi.
    + rewrite Hj. simpl. by rewrite Heq.
  - apply list_elem_of_In in He.
    apply (find_none _ _ Hfind) in He. by apply bool_decide_eq_false in He.
Qed.

(** X9. The closed choice never propagates an entry of the enum that comes
    after another entry with the same string representation: an entry it
    propagates is the first with its representation, and is propagated
    for that representation only. *)
Theorem select_propagates_first_entries_only schema options onValueChange es v e :
  PrimitiveField schema = Select options onValueChange →
  schema_enum schema = Some es →
  e ∈ es →
  onValueChange v = literal_value e →
  literal_to_string e = v
  ∧ ∃ pre post,
      es = (pre ++ e :: post)%list
      ∧ Forall (λ e', literal_to_string e' ≠ v) pre.
Proof.
  intros (es' & Hes & ->)%Select_inv Hes' He.
  rewrite Hes in Hes'. injection Hes' as ->.
  destruct (List.find _ es) as [e'|] eqn:Hfind.
  - intros ->%literal_value_inj.
    apply find_Some_first in Hfind
      as (pre & post & -> & Heq%bool_decide_eq_true & Hpre).
    split; [done|]. exists pre, post. split; [done|].
    eapply Forall_impl; [exact Hpre|].
    intros e'' Hne. by apply bool_decide_eq_false in Hne.
  - intros Hv. apply list_elem_of_In in He.
    apply (find_none _ _ Hfind) in He. apply bool_decide_eq_false in He.
    by destruct e; simplify_eq/=.
Qed.

(** ** What the object and array editors render *)

(** X10. The object editor renders every declared property once, the
    simple ones before the complex ones and each group in the order of
    [Object.entries].  A simple property always gets the primitive editor
    and a complex one the array or object editor of its kind, each with the
    property's own schema, whatever value is handed to it; and that value
    is the object's own property of that name when it has one. *)
Theorem ObjectField_renders_each_property_once h schema value :
  let '(simple, complex) := ObjectField h schema value in
  (simple ++ complex)%list.*1 ≡ₚ (declared_properties schema).*1
  ∧ simple.*1 `sublist_of` (entries schema).*1
  ∧ complex.*1 `sublist_of` (entries schema).*1
  ∧ Forall
      (λ '(propName, child),
         ∃ propSchema,
           (propName, propSchema) ∈ declared_properties schema
           ∧ getSchemaType propSchema ≠ Some "object"
           ∧ getSchemaType propSchema ≠ Some "array"
           ∧ (∀ x, child_editor child x = PrimitiveFieldElement propSchema x)
           ∧ (∀ x, objValue h value !! propName = Some x →
                   child_reading child = OwnProperty x))
      simple
  ∧ Forall
      (λ '(propName, child),
         ∃ propSchema,
           (propName, propSchema) ∈ declared_properties schema
           ∧ ((getSchemaType propSchema = Some "array"
               ∧ ∀ x, child_editor child x = ArrayFieldElement propSchema x)
              ∨ (getSchemaType propSchema = Some "object"
                 ∧ ∀ x, child_editor child x = ObjectFieldElement propSchema x))
           ∧ (∀ x, objValue h value !! propName = Some x →
                   child_reading child = OwnProperty x))
      complex.
Proof.
  unfold ObjectField.
  assert (∀ (f : JsonSchema → val → element) (l : list (string * JsonSchema)),
            ((λ '(propName, propSchema),
                (propName,
                 {| child_editor := f propSchema;
                    child_reading := read_property h value propName |}))
               <$> l).*1
            = l.*1) as Hfst.
  { intros f l. rewrite <-list_fmap_compose. apply list_fmap_ext.
    by intros i [? ?]. }
  assert (∀ entry, entry ∈ entries schema → entry ∈ declared_properties schema)
    as Hdeclared.
  { intros entry. unfold entries. by rewrite own_property_order_Permutation. }
  assert (∀ propName x,
            objValue h value !! propName = Some x →
            read_property h value propName = OwnProperty x) as Hread.
  { intros propName x Hx. unfold read_property. by rewrite Hx. }
  split_and!.
  - rewrite fmap_app, !Hfst, <-fmap_app. apply fmap_Permutation.
    etrans; [|apply (own_property_order_Permutation (declared_properties schema))].
    symmetry. unfold simpleFields, complexFields, entries.
    apply filter_partition. intros [name propSchema].
    by rewrite negb_andb, !negb_involutive.
  - rewrite Hfst. apply fmap_sublist, filter_sublist.
  - rewrite Hfst. apply fmap_sublist, filter_sublist.
  - apply Forall_fmap, Forall_forall. intros [propName propSchema] Hin.
    apply list_elem_of_In, filter_In in Hin as [Hin Hkind]. simpl in *.
    apply andb_true_iff in Hkind as [Hobj%negb_true_iff Harr%negb_true_iff].
    exists propSchema. split_and!.
    + by apply Hdeclared, list_elem_of_In.
    + by apply type_is_false.
    + by apply type_is_false.
    + intros x. unfold FieldRenderer. by rewrite Hobj, Harr.
    + apply Hread.
  - apply Forall_fmap, Forall_forall. intros [propName propSchema] Hin.
    apply list_elem_of_In, filter_In in Hin as [Hin Hkind]. simpl in *.
    exists propSchema. split; [by apply Hdeclared, list_elem_of_In|].
    split; [|apply Hread].
    unfold CollapsibleSection.
    destruct (type_is (getSchemaType propSchema) "array") eqn:Harr.
    + left. split; [by apply type_is_true|done].
    + right. rewrite ?Harr, orb_false_r in Hkind.
      split; [by apply type_is_true|done].
Qed.

(** X11. The array editor renders one editor per element, in order, all of
    them for the item schema, and of the kind that the item schema alone
    decides.  Without [items] the elements are edited as single-line
    texts. *)
Theorem ArrayField_one_editor_per_item h schema value :
  length (ArrayField h schema value) = length (arrayValue h value)
  ∧ (∀ (i : nat) item,
       arrayValue h value !! i = Some item →
       ArrayField h schema value !! i
       = Some
           (if decide (getSchemaType (itemSchema schema) = Some "array")
            then ArrayFieldElement (itemSchema schema) item
            else if decide (getSchemaType (itemSchema schema) = Some "object")
            then ObjectFieldElement (itemSchema schema) item
            else PrimitiveFieldElement (itemSchema schema) item))
  ∧ (schema_items schema = None →
     (∀ (i : nat) item,
        arrayValue h value !! i = Some item →
        ArrayField h schema value !! i
        = Some (PrimitiveFieldElement (itemSchema schema) item))
     ∧ ∃ onChange, PrimitiveField (itemSchema schema) = TextInput onChange).
Proof.
  unfold ArrayField. split_and!.
  - apply length_fmap.
  - intros i item Hi. rewrite list_lookup_fmap, Hi. simpl. f_equal.
    unfold type_is. repeat case_decide; repeat case_bool_decide; try done.
    all: simpl; congruence.
  - intros Hitems.
    assert (itemSchema schema = typed "string" None) as ->.
    { unfold itemSchema. by rewrite Hitems. }
    split; [|by eexists].
    intros i item Hi. by rewrite list_lookup_fmap, Hi.
Qed.

(** ** How the change callbacks compose *)

Lemma objValue_alloc h l props :
  objValue (<[l := CObject props]> h) (VRef l) = props.
Proof. unfold objValue. by rewrite lookup_insert_eq. Qed.

Lemma arrayValue_alloc h l elems :
  arrayValue (<[l := CArray elems]> h) (VRef l) = elems.
Proof. unfold arrayValue. by rewrite lookup_insert_eq. Qed.

Lemma handlePropertyChange_objValue value propName propValue h r h' :
  handlePropertyChange value propName propValue h = (r, h') →
  objValue h' r = <[propName := propValue]> (objValue h value)
  ∧ ∃ l, r = VRef l ∧ h !! l = None.
Proof.
  destruct (handlePropertyChange_eq value propName propValue h) as (l & Hl & ->).
  intros [= <- <-]. split; [apply objValue_alloc|eauto].
Qed.

Lemma handleRemove_arrayValue value index h r h' :
  handleRemove value index h = (r, h') →
  arrayValue h' r = delete index (arrayValue h value).
Proof.
  destruct (handleRemove_eq value index h) as (l & Hl & ->).
  intros [= <- <-]. apply arrayValue_alloc.
Qed.

Lemma handleItemChange_arrayValue value index itemValue h r h' :
  handleItemChange value index itemValue h = (r, h') →
  arrayValue h' r = array_set (arrayValue h value) index itemValue.
Proof.
  destruct (handleItemChange_eq value index itemValue h) as (l & Hl & ->).
  intros [= <- <-]. apply arrayValue_alloc.
Qed.

Lemma handleAdd_arrayValue schema value h r h' :
  handleAdd schema value h = (r, h') →
  ∃ d h1,
    getDefaultValue (itemSchema schema) h = (d, h1)
    ∧ arrayValue h' r = arrayValue h value ++ [d].
Proof.
  destruct (getDefaultValue (itemSchema schema) h) as [d h1] eqn:E.
  destruct (handleAdd_eq schema value h d h1 E) as (l & Hl & ->).
  intros [= <- <-]. exists d, h1. split; [done|apply arrayValue_alloc].
Qed.

(** X12. Changes of two different properties give an object with the same
    properties in either order, and of two changes of one property the
    later one wins. *)
Theorem property_changes_commute h value p1 v1 p2 v2 :
  let '(r1, h1) := handlePropertyChange value p1 v1 h in
  let '(r12, h12) := handlePropertyChange r1 p2 v2 h1 in
  let '(r2, h2) := handlePropertyChange value p2 v2 h in
  let '(r21, h21) := handlePropertyChange r2 p1 v1 h2 in
  (p1 ≠ p2 → objValue h12 r12 = objValue h21 r21)
  ∧ (p1 = p2 → objValue h12 r12 = objValue h2 r2).
Proof.
  destruct (handlePropertyChange value p1 v1 h) as [r1 h1] eqn:E1.
  destruct (handlePropertyChange r1 p2 v2 h1) as [r12 h12] eqn:E12.
  destruct (handlePropertyChange value p2 v2 h) as [r2 h2] eqn:E2.
  destruct (handlePropertyChange r2 p1 v1 h2) as [r21 h21] eqn:E21.
  apply handlePropertyChange_objValue in E1 as [E1 _], E12 as [E12 _].
  apply handlePropertyChange_objValue in E2 as [E2 _], E21 as [E21 _].
  rewrite E12, E21, E1, E2. split.
  - intros Hne. by apply insert_insert_ne.
  - intros ->. apply insert_insert_eq.
Qed.

(** X13. Setting a property to the value it has yields an object with the
    same properties as before, but a new one: the result is a reference
    to an address that was free, so never the value received. *)
Theorem unchanged_property_makes_new_object h value propName v :
  objValue h value !! propName = Some v →
  let '(r, h') := handlePropertyChange value propName v h in
  objValue h' r = objValue h value
  ∧ r ≠ value
  ∧ ∃ l, r = VRef l ∧ h !! l = None.
Proof.
  intros Hv. destruct (handlePropertyChange value propName v h) as [r h'] eqn:E.
  apply handlePropertyChange_objValue in E as [E (l & -> & Hl)].
  split_and!; [|intros <-|by eauto].
  - rewrite E. by apply insert_id.
  - unfold objValue in Hv. by rewrite Hl in Hv.
Qed.

(** X14. Removing an index at or beyond the length removes nothing: the
    result is a new array with the same elements, the empty array when
    the value is not an array. *)
Theorem remove_out_of_range h value (index : nat) :
  (length (arrayValue h value) ≤ index)%nat →
  ∃ l,
    h !! l = None
    ∧ handleRemove value index h
      = (VRef l, <[l := CArray (arrayValue h value)]> h).
Proof.
  intros Hge. destruct (handleRemove_eq value index h) as (l & Hl & ->).
  exists l. split; [done|]. do 3 f_equal.
  apply list_eq. intros j. destruct (decide (j < index)).
  - by rewrite list_lookup_delete_lt.
  - rewrite list_lookup_delete_ge by lia.
    by rewrite !(lookup_ge_None_2 (arrayValue h value)) by lia.
Qed.

(** X15. Appending an item and then removing the last index gives an array
    with the elements the value had, and leaves the value itself alone. *)
Theorem add_then_remove_last schema value h :
  let '(r1, h1) := handleAdd schema value h in
  let '(r2, h2) := handleRemove r1 (length (arrayValue h value)) h1 in
  arrayValue h2 r2 = arrayValue h value
  ∧ length (arrayValue h1 r1) = S (length (arrayValue h value))
  ∧ h ⊆ h2.
Proof.
  destruct (handleAdd schema value h) as [r1 h1] eqn:E1.
  destruct (handleRemove r1 (length (arrayValue h value)) h1) as [r2 h2] eqn:E2.
  pose proof E2 as E2'. apply handleRemove_arrayValue in E2'.
  pose proof E1 as E1'. apply handleAdd_arrayValue in E1' as (d & h0 & Hd & E1').
  rewrite E2', E1'. split_and!.
  - replace (arrayValue h value ++ [d]) with (arrayValue h value ++ d :: []) by done.
    rewrite delete_middle. apply app_nil_r.
  - rewrite length_app. simpl. lia.
  - destruct (handleAdd_eq schema value h d h0 Hd) as (l1 & Hl1 & E).
    rewrite E in E1. injection E1 as <- <-.
    destruct (handleRemove_eq (VRef l1) (length (arrayValue h value))
                (<[l1:=CArray (arrayValue h value ++ [d])]> h0)) as (l2 & Hl2 & E').
    rewrite E' in E2. injection E2 as <- <-.
    etrans; [by eapply getDefaultValue_subseteq|].
    etrans; by apply insert_fresh_subseteq.
Qed.

(** X16. For an index within the array, changing the item keeps the
    length; changing it and then removing it is removing it; and of two
    changes of one item the later one wins. *)
Theorem item_changes_compose h value (index : nat) v w :
  index < length (arrayValue h value) →
  let '(r1, h1) := handleItemChange value index v h in
  length (arrayValue h1 r1) = length (arrayValue h value)
  ∧ (let '(r2, h2) := handleRemove r1 index h1 in
     let '(r3, h3) := handleRemove value index h in
     arrayValue h2 r2 = arrayValue h3 r3)
  ∧ (let '(r2, h2) := handleItemChange r1 index w h1 in
     let '(r3, h3) := handleItemChange value index w h in
     arrayValue h2 r2 = arrayValue h3 r3).
Proof.
  intros Hlt.
  destruct (handleItemChange value index v h) as [r1 h1] eqn:E1.
  apply handleItemChange_arrayValue in E1.
  assert (array_set (arrayValue h value) index v = <[index := v]> (arrayValue h value))
    as Hset by (unfold array_set; by case_decide).
  rewrite Hset in E1. split_and!.
  - by rewrite E1, length_insert.
  - destruct (handleRemove r1 index h1) as [r2 h2] eqn:E2.
    destruct (handleRemove value index h) as [r3 h3] eqn:E3.
    apply handleRemove_arrayValue in E2, E3. rewrite E2, E3, E1.
    apply list_eq. intros j. destruct (decide (j < index)).
    + by rewrite !list_lookup_delete_lt, list_lookup_insert_ne by lia.
    + by rewrite !list_lookup_delete_ge, list_lookup_insert_ne by lia.
  - destruct (handleItemChange r1 index w h1) as [r2 h2] eqn:E2.
    destruct (handleItemChange value index w h) as [r3 h3] eqn:E3.
    apply handleItemChange_arrayValue in E2, E3. rewrite E2, E3, E1.
    unfold array_set. rewrite length_insert. case_decide; [|lia].
    apply list_insert_insert_eq.
Qed.

(** ** An edit along a path *)

Lemma propagate_emit_lands path v :
  ∀ value h r' h',
    propagate path value (emit v) h = (r', h') →
    ∀ h'', h' ⊆ h'' → get_path h'' r' (step_key <$> path) = v.
Proof.
  induction path as [|[propName|index] rest IH]; intros value h r' h' E h'' Hsub.
  - by injection E as <- <-.
  - simpl in E. unfold mbind, State_bind, gets in E.
    destruct (propagate rest (property h value propName) (emit v) h)
      as [v' h1] eqn:E1.
    destruct (handlePropertyChange_eq value propName v' h1) as (l & Hl & E2).
    rewrite E2 in E. injection E as <- <-. simpl.
    erewrite property_ref; [|eapply lookup_weaken; [apply lookup_insert_eq|done]].
    simpl. rewrite lookup_insert_eq. simpl.
    eapply IH; [done|]. etrans; [|done]. by apply insert_fresh_subseteq.
  - simpl in E. unfold mbind, State_bind, gets in E.
    destruct (propagate rest (default VUndefined (arrayValue h value !! index))
                (emit v) h) as [v' h1] eqn:E1.
    destruct (handleItemChange_eq value index v' h1) as (l & Hl & E2).
    rewrite E2 in E. injection E as <- <-. simpl.
    erewrite property_ref; [|eapply lookup_weaken; [apply lookup_insert_eq|done]].
    rewrite own_properties_array_index, array_set_lookup_eq. simpl.
    eapply IH; [done|]. etrans; [|done]. by apply insert_fresh_subseteq.
Qed.

(** X17. The value that a primitive editor hands on at the end of a path of
    nested editors is what the new root holds at that path. *)
Theorem propagate_lands_at_path path value v h :
  let '(r', h') := propagate path value (emit v) h in
  get_path h' r' (step_key <$> path) = v.
Proof.
  destruct (propagate path value (emit v) h) as [r' h'] eqn:E.
  by eapply propagate_emit_lands.
Qed.

(** X18. Such an edit adds exactly one container to the store for each
    editor on the path and changes nothing that was there; when the path
    is not empty, the new root is a container that did not exist. *)
Theorem propagate_allocates_one_container_per_step path value v h :
  let '(r', h') := propagate path value (emit v) h in
  size h' = size h + length path
  ∧ h ⊆ h'
  ∧ (path ≠ [] → ∃ l, r' = VRef l ∧ h !! l = None ∧ is_Some (h' !! l)).
Proof.
  revert value h. induction path as [|[propName|index] rest IH]; intros value h.
  - simpl. split_and!; [lia|done|done].
  - simpl. unfold mbind, State_bind, gets.
    specialize (IH (property h value propName) h).
    destruct (propagate rest (property h value propName) (emit v) h)
      as [v' h1] eqn:E1.
    destruct IH as (Hsize & Hsub & _).
    destruct (handlePropertyChange_eq value propName v' h1) as (l & Hl & ->).
    split_and!.
    + rewrite map_size_insert_None by done. lia.
    + etrans; [done|]. by apply insert_fresh_subseteq.
    + intros _. exists l. split_and!; [done| |by rewrite lookup_insert_eq].
      by eapply lookup_weaken_None.
  - simpl. unfold mbind, State_bind, gets.
    specialize (IH (default VUndefined (arrayValue h value !! index)) h).
    destruct (propagate rest (default VUndefined (arrayValue h value !! index))
                (emit v) h) as [v' h1] eqn:E1.
    destruct IH as (Hsize & Hsub & _).
    destruct (handleItemChange_eq value index v' h1) as (l & Hl & ->).
    split_and!.
    + rewrite map_size_insert_None by done. lia.
    + etrans; [done|]. by apply insert_fresh_subseteq.
    + intros _. exists l. split_and!; [done| |by rewrite lookup_insert_eq].
      by eapply lookup_weaken_None.
Qed.

(** ** Synthesized defaults *)

Lemma getDefaultValue_composite schema h :
  schema_default schema = VUndefined →
  getSchemaType schema = Some "object" ∨ getSchemaType schema = Some "array" →
  ∃ l,
    h !! l = None
    ∧ getDefaultValue schema h
      = (VRef l,
         <[l := if decide (getSchemaType schema = Some "object")
                then CObject ∅ else CArray []]> h).
Proof.
  intros Hd Hty. unfold getDefaultValue, type_is. rewrite Hd.
  destruct Hty as [-> | ->].
  - rewrite bool_decide_eq_true_2, decide_True by done. apply alloc_eq.
  - rewrite bool_decide_eq_false_2, bool_decide_eq_true_2, decide_False by done.
    apply alloc_eq.
Qed.

(** X19. Two appends to an array of objects or arrays without a schema
    default add two different new empty containers, so the appended items
    share nothing; with a schema default, both appended items are the
    schema's default value itself. *)
Theorem appended_defaults schema value h :
  let '(r1, h1) := handleAdd schema value h in
  let '(r2, h2) := handleAdd schema r1 h1 in
  (schema_default (itemSchema schema) ≠ VUndefined →
     arrayValue h2 r2
     = arrayValue h value
       ++ [schema_default (itemSchema schema); schema_default (itemSchema schema)])
  ∧ (schema_default (itemSchema schema) = VUndefined →
     getSchemaType (itemSchema schema) = Some "object"
     ∨ getSchemaType (itemSchema schema) = Some "array" →
     ∃ l1 l2 c,
       l1 ≠ l2
       ∧ arrayValue h2 r2 = arrayValue h value ++ [VRef l1; VRef l2]
       ∧ h !! l1 = None ∧ h !! l2 = None
       ∧ (c = CObject ∅ ∨ c = CArray [])
       ∧ h2 !! l1 = Some c ∧ h2 !! l2 = Some c).
Proof.
  destruct (handleAdd schema value h) as [r1 h1] eqn:E1.
  destruct (handleAdd schema r1 h1) as [r2 h2] eqn:E2.
  pose proof E1 as (d1 & h0 & Hd1 & Hr1)%handleAdd_arrayValue.
  pose proof E2 as (d2 & h0' & Hd2 & Hr2)%handleAdd_arrayValue.
  rewrite Hr2, Hr1, <-app_assoc. simpl. split.
  - intros Hdef. unfold getDefaultValue in Hd1, Hd2.
    destruct (schema_default (itemSchema schema)); [done|..];
      cbv [mret State_ret] in Hd1, Hd2; by simplify_eq.
  - intros Hdef Hty.
    destruct (getDefaultValue_composite _ h Hdef Hty) as (l1 & Hl1 & E).
    set (c := if decide (getSchemaType (itemSchema schema) = Some "object")
              then CObject ∅ else CArray []) in *.
    assert (c = CObject ∅ ∨ c = CArray []) as Hc by (unfold c; case_decide; auto).
    rewrite E in Hd1. injection Hd1 as <- <-.
    destruct (handleAdd_eq schema value h _ _ E) as (la & Hla & Ea).
    rewrite Ea in E1. injection E1 as <- <-.
    destruct (getDefaultValue_composite _
                (<[la:=CArray (arrayValue h value ++ [VRef l1])]> (<[l1:=c]> h))
                Hdef Hty) as (l2 & Hl2 & E').
    fold c in E'. clearbody c.
    pose proof Hd2 as Hd2'. rewrite E' in Hd2'. injection Hd2' as <- <-.
    destruct (handleAdd_eq schema (VRef la) _ _ _ Hd2) as (lb & Hlb & Eb).
    rewrite Eb in E2. injection E2 as _ <-.
    assert (l1 ≠ la) by (intros ->; by rewrite lookup_insert_eq in Hla).
    assert (l2 ≠ la) by (intros ->; by rewrite lookup_insert_eq in Hl2).
    assert (l1 ≠ l2).
    { intros ->. by rewrite lookup_insert_ne, lookup_insert_eq in Hl2. }
    assert (lb ≠ l2) by (intros ->; by rewrite lookup_insert_eq in Hlb).
    assert (lb ≠ l1).
    { intros ->.
      by rewrite lookup_insert_ne, lookup_insert_ne, lookup_insert_eq in Hlb. }
    exists l1, l2, c. split_and!; [done..| | |done| |].
    + done.
    + by rewrite !lookup_insert_ne in Hl2 by done.
    + rewrite !lookup_insert_ne by done. apply lookup_insert_eq.
    + rewrite lookup_insert_ne by done. apply lookup_insert_eq.
Qed.

(** ** The schema handed to the form *)

(** X20. Preparing the schema for the form leaves the module's schema
    object as it was: the form gets a new object with the same properties
    except "$schema" and "$id", which it does not have; without a module
    schema it gets a new object of type "object" with a new empty
    [properties] object. *)
Theorem cleanSchema_copies (moduleSchema : option positive) h :
  let '(r, h') := cleanSchema moduleSchema h in
  h ⊆ h'
  ∧ ∃ l props,
      r = VRef l ∧ h !! l = None ∧ h' !! l = Some (CObject props)
      ∧ props !! "$schema" = None ∧ props !! "$id" = None
      ∧ (∀ l0, moduleSchema = Some l0 →
           ∀ k, k ≠ "$schema" → k ≠ "$id" →
                props !! k = objValue h (VRef l0) !! k)
      ∧ (moduleSchema = None →
           props !! "type" = Some (VString "object")
           ∧ ∃ lp, props !! "properties" = Some (VRef lp)
                   ∧ h !! lp = None ∧ h' !! lp = Some (CObject ∅)
                   ∧ ∀ k, k ≠ "type" → k ≠ "properties" → props !! k = None).
Proof.
  unfold cleanSchema, mbind, State_bind, gets. destruct moduleSchema as [l0|].
  - destruct (alloc_eq (CObject (objValue h (VRef l0))) h) as (l & Hl & ->).
    simpl. rewrite lookup_insert_eq. simpl. rewrite lookup_insert_eq.
    rewrite !insert_insert_eq. split; [by apply insert_fresh_subseteq|].
    eexists l, _. split_and!; [done..|apply lookup_insert_eq| | | |done].
    + rewrite lookup_delete_ne by done. apply lookup_delete_eq.
    + apply lookup_delete_eq.
    + intros ? [= <-] k Hk1 Hk2. by rewrite !lookup_delete_ne.
  - destruct (alloc_eq (CObject ∅) h) as (lp & Hlp & ->).
    destruct (alloc_eq
                (CObject {[ "type" := VString "object"; "properties" := VRef lp ]})
                (<[lp:=CObject ∅]> h)) as (l & Hl & ->).
    simpl. rewrite lookup_insert_eq. simpl. rewrite lookup_insert_eq.
    rewrite !insert_insert_eq.
    assert (l ≠ lp) by (intros ->; by rewrite lookup_insert_eq in Hl).
    rewrite lookup_insert_ne in Hl by done.
    split; [etrans; apply insert_fresh_subseteq; [done|by rewrite lookup_insert_ne]|].
    eexists l, _. split_and!; [done..|apply lookup_insert_eq| | |done|].
    + rewrite lookup_delete_ne by done. apply lookup_delete_eq.
    + apply lookup_delete_eq.
    + intros _. split.
      * rewrite !lookup_delete_ne by done. apply lookup_insert_eq.
      * exists lp. split_and!; [|done| |].
        -- rewrite !lookup_delete_ne by done.
           rewrite lookup_insert_ne by done. apply lookup_insert_eq.
        -- rewrite lookup_insert_ne by done. apply lookup_insert_eq.
        -- intros k Hk1 Hk2.
           destruct (decide (k = "$id")) as [->|]; [apply lookup_delete_eq|].
           rewrite lookup_delete_ne by done.
           destruct (decide (k = "$schema")) as [->|]; [apply lookup_delete_eq|].
           rewrite lookup_delete_ne by done.
           rewrite lookup_insert_ne by done.
           by rewrite lookup_singleton_ne.
Qed.

End EngineProperties.

(** * The further properties on concrete inputs *)

Section MoreConcrete.
Import IntRuntime.

Local Open Scope list_scope.

Lemma formatLabel_is_clean_witness :
  head (formatLabel (codes "foo_barBaz")) = Some 70%N
  ∧ is_whitespace 70 = false.
Proof.
  split; [reflexivity|].
  destruct (formatLabel_is_clean (codes "foo_barBaz")) as (_ & Hhead & _).
  apply Hhead. reflexivity.
Defined.

Lemma formatLabel_first_character_witness :
  is_lower 102 = true
  ∧ (∃ tail, formatLabel (codes "fooBar") = 70%N :: tail)
  ∧ (∃ tail, formatLabel (codes "_fooBar") = 102%N :: tail).
Proof.
  split; [reflexivity|].
  destruct (formatLabel_first_character 102 (codes "ooBar")) as (Hlower & _ & Hsep).
  split; [apply Hlower; reflexivity|].
  apply (Hsep 95%N); [left; reflexivity|reflexivity].
Defined.

Lemma handleCreateTenant_submits_trimmed_witness :
  handleCreateTenant (codes "  abc ") (codes "   ") = Mutate (codes "abc") None
  ∧ trim (codes "   ") = []
  ∧ codes "abc" = trim (codes "  abc ")
  ∧ codes "abc" ≠ [].
Proof.
  split; [reflexivity|]. split; [reflexivity|].
  destruct (handleCreateTenant_submits_trimmed (codes "  abc ") (codes "   "))
    as [_ Hmutate].
  destruct (Hmutate (codes "abc") None eq_refl) as (Hid & Hne & _).
  split; [exact Hid|exact Hne].
Defined.

Lemma modules_by_scope_partition_witness :
  let '(tenantModules, subscriptionModules, allModules) := useModulesByScope None in
  tenantModules = [] ∧ subscriptionModules = [] ∧ allModules = [].
Proof.
  pose proof (modules_by_scope_partition None) as (Hall & _ & _ & _ & _ & _ & Hnone).
  simpl in *. destruct (Hnone eq_refl) as [Ht Hs].
  split; [exact Ht|]. split; [exact Hs|exact Hall].
Defined.

(** Two modules, "Network" for tenants and "Naming" for subscriptions. *)
Lemma module_search_narrows_witness :
  let network := {| module_name := codes "Network"; module_path := codes "network";
                    module_scope := TenantScope; module_description := None |} in
  let naming := {| module_name := codes "Naming"; module_path := codes "naming";
                   module_scope := SubscriptionScope; module_description := None |} in
  trim (codes "net") ≠ []
  ∧ includes (ascii_toLowerCase (codes "net")) (ascii_toLowerCase (codes "N")) = true
  ∧ filteredModules ascii_toLowerCase [network; naming] (codes "net")
    `sublist_of` filteredModules ascii_toLowerCase [network; naming] (codes "N")
  ∧ filteredModules ascii_toLowerCase [network; naming] (codes "net") = [network].
Proof.
  intros network naming.
  split; [discriminate|]. split; [reflexivity|].
  destruct (module_search_narrows ascii_toLowerCase [network; naming] (codes "N"))
    as (_ & _ & _ & Hnarrow).
  split; [apply Hnarrow; [discriminate|reflexivity]|reflexivity].
Defined.

Lemma tenant_search_by_prefix_or_suffix_witness :
  let contoso := {| tenant_id := codes "Contoso-01"; tenant_name := None;
                    subscriptionCount := 2; configuredModules := [] |} in
  let fabrikam := {| tenant_id := codes "fabrikam"; tenant_name := None;
                     subscriptionCount := 0; configuredModules := [] |} in
  contoso ∈ [contoso; fabrikam]
  ∧ ascii_toLowerCase (tenant_id contoso)
    = trim (ascii_toLowerCase (codes " CONTOSO-01 "))
  ∧ contoso ∈ filteredTenants ascii_toLowerCase (Some [contoso; fabrikam])
                (codes " CONTOSO-01 ").
Proof.
  intros contoso fabrikam.
  assert (contoso ∈ [contoso; fabrikam]) as Hin by apply list_elem_of_here.
  split; [exact Hin|]. split; [reflexivity|].
  destruct (tenant_search_by_prefix_or_suffix ascii_toLowerCase
              [contoso; fabrikam] (codes " CONTOSO-01 ")) as (_ & _ & _ & _ & Hfound).
  apply Hfound; [exact Hin|reflexivity].
Defined.

Lemma getSchemaType_resolution_witness :
  schema_type (typed "array" None) = Some (TypeName "array")
  ∧ getSchemaType (typed "array" None) = Some "array"
  ∧ schema_type scenario_schema = None
  ∧ getSchemaType scenario_schema = Some "object".
Proof.
  split; [reflexivity|].
  destruct (getSchemaType_resolution (typed "array" None)) as (_ & Hname & _).
  split; [apply Hname; [discriminate|reflexivity]|].
  split; [reflexivity|].
  destruct (getSchemaType_resolution scenario_schema) as (_ & _ & _ & Hshape).
  destruct Hshape as (Hobject & _); [left; reflexivity|].
  apply Hobject. eexists. reflexivity.
Defined.

Lemma select_round_trip_witness :
  ∃ options onValueChange,
    PrimitiveField number_enum_schema = Select options onValueChange
    ∧ NoDup (literal_to_string <$> [LNumber (lit 1); LNumber (lit 2); LNumber (lit 3)])
    ∧ onValueChange (literal_to_string (LNumber (lit 3))) = VNumber (lit 3).
Proof.
  assert (NoDup (literal_to_string
                   <$> [LNumber (lit 1); LNumber (lit 2); LNumber (lit 3)]))
    as Hnodup.
  { apply (bool_decide_unpack _). vm_compute. exact I. }
  eexists _, _. split; [reflexivity|]. split; [exact Hnodup|].
  apply (select_round_trip number_enum_schema _ _ _ eq_refl eq_refl Hnodup).
  apply list_elem_of_further, list_elem_of_further, list_elem_of_here.
Defined.

Lemma select_propagates_first_entries_only_witness :
  ∃ options onValueChange,
    PrimitiveField number_enum_schema = Select options onValueChange
    ∧ onValueChange "2" = literal_value (LNumber (lit 2))
    ∧ literal_to_string (LNumber (lit 2)) = "2"%string.
Proof.
  eexists _, _. split; [reflexivity|]. split; [reflexivity|].
  destruct (select_propagates_first_entries_only number_enum_schema _ _ _
              "2" (LNumber (lit 2)) eq_refl eq_refl) as [Hstring _].
  - apply list_elem_of_further, list_elem_of_here.
  - reflexivity.
  - exact Hstring.
Defined.

Lemma ObjectField_renders_each_property_once_witness :
  objValue store0 (VRef 2) !! "a" = Some VNull
  ∧ ∃ child,
      (ObjectField store0 object_item_schema (VRef 2)).1 !! 0%nat
      = Some ("a", child)
      ∧ child_reading child = OwnProperty VNull.
Proof.
  split; [reflexivity|].
  pose proof (ObjectField_renders_each_property_once
                store0 object_item_schema (VRef 2)) as Hrenders.
  set (rendered := ObjectField store0 object_item_schema (VRef 2)) in *.
  assert (∃ child, rendered.1 !! 0%nat = Some ("a", child)) as [child Hchild].
  { eexists. reflexivity. }
  clearbody rendered. destruct rendered as [simple complex].
  destruct Hrenders as (_ & _ & _ & Hsimple & _).
  exists child. split; [exact Hchild|].
  destruct (Forall_lookup_1 _ _ _ _ Hsimple Hchild)
    as (propSchema & _ & _ & _ & _ & Hown).
  apply Hown. reflexivity.
Defined.

Lemma ArrayField_one_editor_per_item_witness :
  schema_items (typed "array" None) = None
  ∧ arrayValue store0 (VRef 1) !! 1%nat = Some (VString "b")
  ∧ ArrayField store0 (typed "array" None) (VRef 1) !! 1%nat
    = Some (PrimitiveFieldElement (itemSchema (typed "array" None)) (VString "b")).
Proof.
  split; [reflexivity|]. split; [reflexivity|].
  destruct (ArrayField_one_editor_per_item store0 (typed "array" None) (VRef 1))
    as (_ & _ & Hitems).
  destruct (Hitems eq_refl) as [Heditor _]. apply Heditor. reflexivity.
Defined.

Lemma property_changes_commute_witness :
  let '(r1, h1) := handlePropertyChange (VRef 2) "a" (VString "x") store0 in
  let '(r12, h12) := handlePropertyChange r1 "b" (VString "y") h1 in
  let '(r2, h2) := handlePropertyChange (VRef 2) "b" (VString "y") store0 in
  let '(r21, h21) := handlePropertyChange r2 "a" (VString "x") h2 in
  "a" ≠ "b" ∧ objValue h12 r12 = objValue h21 r21.
Proof.
  pose proof (property_changes_commute store0 (VRef 2)
                "a" (VString "x") "b" (VString "y")) as Hcommute.
  destruct (handlePropertyChange (VRef 2) "a" (VString "x") store0) as [r1 h1].
  destruct (handlePropertyChange r1 "b" (VString "y") h1) as [r12 h12].
  destruct (handlePropertyChange (VRef 2) "b" (VString "y") store0) as [r2 h2].
  destruct (handlePropertyChange r2 "a" (VString "x") h2) as [r21 h21].
  destruct Hcommute as [Hne _].
  split; [discriminate|]. apply Hne. discriminate.
Defined.

Lemma unchanged_property_makes_new_object_witness :
  objValue store0 (VRef 2) !! "a" = Some VNull
  ∧ (let '(r, h') := handlePropertyChange (VRef 2) "a" VNull store0 in
     objValue h' r = objValue store0 (VRef 2)
     ∧ r ≠ VRef 2
     ∧ ∃ l, r = VRef l ∧ store0 !! l = None).
Proof.
  split; [reflexivity|].
  apply (unchanged_property_makes_new_object store0 (VRef 2) "a" VNull).
  reflexivity.
Defined.

Lemma remove_out_of_range_witness :
  (length (arrayValue store0 (VRef 1)) ≤ 5)%nat
  ∧ ∃ l,
      store0 !! l = None
      ∧ handleRemove (VRef 1) 5 store0
        = (VRef l, <[l := CArray (arrayValue store0 (VRef 1))]> store0).
Proof.
  assert (length (arrayValue store0 (VRef 1)) ≤ 5)%nat as Hge
    by (change (3 ≤ 5)%nat; lia).
  split; [exact Hge|].
  apply (remove_out_of_range store0 (VRef 1) 5 Hge).
Defined.

Lemma item_changes_compose_witness :
  1 < length (arrayValue store0 (VRef 1))
  ∧ (let '(r1, h1) := handleItemChange (VRef 1) 1 (VString "x") store0 in
     length (arrayValue h1 r1) = length (arrayValue store0 (VRef 1))).
Proof.
  assert (1 < length (arrayValue store0 (VRef 1))) as Hlt
    by (change (1 < 3); lia).
  split; [exact Hlt|].
  pose proof (item_changes_compose store0 (VRef 1) 1 (VString "x") (VString "y") Hlt)
    as Hcompose.
  destruct (handleItemChange (VRef 1) 1 (VString "x") store0) as [r1 h1].
  destruct Hcompose as [Hlen _]. exact Hlen.
Defined.

Lemma propagate_allocates_one_container_per_step_witness :
  [AtProperty "extra"; AtItem 0] ≠ []
  ∧ (let '(r', h') :=
       propagate [AtProperty "extra"; AtItem 0] (VRef 2) (emit (VString "z")) store0 in
     size h' = size store0 + 2
     ∧ ∃ l, r' = VRef l ∧ store0 !! l = None ∧ is_Some (h' !! l)).
Proof.
  split; [discriminate|].
  pose proof (propagate_allocates_one_container_per_step
                [AtProperty "extra"; AtItem 0] (VRef 2) (VString "z") store0)
    as Halloc.
  destruct (propagate [AtProperty "extra"; AtItem 0] (VRef 2)
              (emit (VString "z")) store0) as [r' h'].
  destruct Halloc as (Hsize & _ & Hroot).
  split; [exact Hsize|]. apply Hroot. discriminate.
Defined.

Lemma appended_defaults_witness :
  schema_default (itemSchema (typed "array" (Some object_item_schema))) = VUndefined
  ∧ getSchemaType (itemSchema (typed "array" (Some object_item_schema)))
    = Some "object"
  ∧ (let '(r1, h1) :=
       handleAdd (typed "array" (Some object_item_schema)) (VRef 3) store0 in
     let '(r2, h2) := handleAdd (typed "array" (Some object_item_schema)) r1 h1 in
     ∃ l1 l2 c,
       l1 ≠ l2
       ∧ arrayValue h2 r2 = arrayValue store0 (VRef 3) ++ [VRef l1; VRef l2]
       ∧ store0 !! l1 = None ∧ store0 !! l2 = None
       ∧ (c = CObject ∅ ∨ c = CArray [])
       ∧ h2 !! l1 = Some c ∧ h2 !! l2 = Some c).
Proof.
  split; [reflexivity|]. split; [reflexivity|].
  pose proof (appended_defaults (typed "array" (Some object_item_schema))
                (VRef 3) store0) as Happend.
  destruct (handleAdd (typed "array" (Some object_item_schema)) (VRef 3) store0)
    as [r1 h1].
  destruct (handleAdd (typed "array" (Some object_item_schema)) r1 h1) as [r2 h2].
  destruct Happend as [_ Hfresh]. apply Hfresh; [reflexivity|left; reflexivity].
Defined.

Lemma cleanSchema_copies_witness :
  let '(r, h') := cleanSchema None store0 in
  ∃ l props,
    r = VRef l ∧ h' !! l = Some (CObject props)
    ∧ props !! "type" = Some (VString "object").
Proof.
  pose proof (cleanSchema_copies None store0) as Hclean.
  destruct (cleanSchema None store0) as [r h'].
  destruct Hclean as (_ & l & props & Hr & _ & Hl & _ & _ & _ & Hnone).
  destruct (Hnone eq_refl) as [Htype _].
  exists l, props. split; [exact Hr|]. split; [exact Hl|exact Htype].
Defined.

End MoreConcrete.
